(** * Daily forecast aggregation of [ForecastScreen]

    A shallow embedding of the grouping / reduction / sorting code of
    [screens/ForecastScreen.js] (lines 13-96), together with the facts the
    specification states about it.

    Conventions of the embedding.
    - JavaScript numbers that the code only compares (timestamps, temperatures)
      are exact integers [Z]; the results of [Math.min] / [Math.max] live in
      [number], which adds the two infinities these functions return on an
      empty argument list.
    - A [Date] is represented by its time value, an integer number of
      milliseconds.  This covers the timestamps for which [new Date(dt * 1000)]
      is a valid date, within 8.64e15 ms of the epoch ([datable]); beyond
      that range the code holds an Invalid Date, whose time value is [NaN],
      and the statements about the [date] of a summary and about the order
      of the summaries are made for datable samples only.
    - A plain JavaScript object used as a dictionary is the list of its own
      properties in creation order; [Object_keys] implements the property
      order of the language (array indices first, ascending, then the other
      keys in creation order) and [lookup] sees the members inherited from
      [Object.prototype].
    - A thrown exception is the [Throw] result; every exception this code can
      raise is a [TypeError].
    - The aggregation is embedded twice: [aggregate] works on arrays as
      values and carries the functional statements; [aggregateAt] keeps the
      arrays of samples on a heap, is proved to return what [aggregate]
      returns, and carries the statement about side effects.
    - The handlers of [screens/SettingsScreen.js] and [fetchWeatherData] of
      [App.js] are state transformers; what the user does and how the
      requests end are their arguments. *)

From Stdlib Require Import List String Ascii ZArith NArith Bool Lia.
From Stdlib Require Import Permutation Sorted DecimalString.
Import ListNotations.
Local Open Scope string_scope.
Local Open Scope Z_scope.
Local Open Scope list_scope.

Set Implicit Arguments.

(** ** Exceptions *)

Inductive error : Type := TypeError.

Inductive result (A : Type) : Type :=
| Ok (a : A)
| Throw (e : error).
Arguments Ok {A} a.
Arguments Throw {A} e.

Definition bind {A B : Type} (r : result A) (k : A -> result B) : result B :=
  match r with
  | Ok a => k a
  | Throw e => Throw e
  end.

Notation "x <- r ;; k" := (bind r (fun x => k))
  (at level 61, r at next level, right associativity).

(** [arr.forEach] with a callback that updates local state and may throw. *)
Fixpoint forEach {A S : Type} (body : S -> A -> result S) (l : list A) (s : S)
  : result S :=
  match l with
  | [] => Ok s
  | x :: l' => s' <- body s x ;; forEach body l' s'
  end.

(** [arr.map] with a callback that may throw. *)
Fixpoint Array_map {A B : Type} (f : A -> result B) (l : list A)
  : result (list B) :=
  match l with
  | [] => Ok []
  | x :: l' => y <- f x ;; ys <- Array_map f l' ;; Ok (y :: ys)
  end.

(** [arr.find]: the first element that satisfies the predicate. *)
Definition Array_find {A : Type} (p : A -> bool) (l : list A) : option A :=
  find p l.

(** ** Numbers *)

Inductive number : Type :=
| NegInfinity
| Finite (z : Z)
| PosInfinity.

(** [Math.min(...l)] and [Math.max(...l)] on finite numbers. *)
Fixpoint Math_min (l : list Z) : number :=
  match l with
  | [] => PosInfinity
  | x :: l' =>
      match Math_min l' with
      | Finite m => Finite (Z.min x m)
      | _ => Finite x
      end
  end.

Fixpoint Math_max (l : list Z) : number :=
  match l with
  | [] => NegInfinity
  | x :: l' =>
      match Math_max l' with
      | Finite m => Finite (Z.max x m)
      | _ => Finite x
      end
  end.

(** ** [Array.prototype.sort]

    The sort is stable and the comparator returns a number whose sign
    decides; a stable insertion sort computes the same array.  (The
    comparator of line 96 subtracts two dates: on valid dates the difference
    is a number, never [NaN].) *)

Section Sort.
Variable A : Type.
Variable compare : A -> A -> Z.

Fixpoint sort_insert (x : A) (l : list A) : list A :=
  match l with
  | [] => [x]
  | y :: l' => if compare x y <=? 0 then x :: l else y :: sort_insert x l'
  end.

Fixpoint Array_sort (l : list A) : list A :=
  match l with
  | [] => []
  | x :: l' => sort_insert x (Array_sort l')
  end.
End Sort.

(** ** Plain objects used as dictionaries *)

(** The names [Object.prototype] defines (with the legacy accessors): a read
    of one of them on an object that has no own property of that name yields
    the inherited member, a function or, for [__proto__], the prototype
    object. *)
Definition Object_prototype_names : list string :=
  [ "constructor"; "hasOwnProperty"; "isPrototypeOf"; "propertyIsEnumerable";
    "toLocaleString"; "toString"; "valueOf"; "__proto__";
    "__defineGetter__"; "__defineSetter__"; "__lookupGetter__";
    "__lookupSetter__" ].

Definition Object_prototype_has (k : string) : bool :=
  existsb (String.eqb k) Object_prototype_names.

(** Canonical array indices: the decimal numeral, without leading zero, of an
    integer below [2^32 - 1]. *)
Definition digit (c : ascii) : option N :=
  let n := N_of_ascii c in
  if ((48 <=? n) && (n <=? 57))%N then Some (n - 48)%N else None.

Fixpoint digits (s : string) (acc : N) : option N :=
  match s with
  | EmptyString => Some acc
  | String c s' =>
      match digit c with
      | Some d => digits s' (10 * acc + d)%N
      | None => None
      end
  end.

Definition arrayIndex (s : string) : option N :=
  match s with
  | EmptyString => None
  | String c s' =>
      match digits s 0%N with
      | Some n =>
          if (Ascii.eqb c "0" && negb (String.eqb s' ""))%bool then None
          else if (n <? 2 ^ 32 - 1)%N then Some n else None
      | None => None
      end
  end.

Definition isArrayIndex (s : string) : bool :=
  match arrayIndex s with Some _ => true | None => false end.

Definition indexValue (s : string) : N :=
  match arrayIndex s with Some n => n | None => 0%N end.

Fixpoint insertIndex (k : string) (l : list string) : list string :=
  match l with
  | [] => [k]
  | k' :: l' =>
      if (indexValue k <=? indexValue k')%N then k :: l
      else k' :: insertIndex k l'
  end.

Definition ascendingIndices (l : list string) : list string :=
  fold_right insertIndex [] l.

Section Object.
Variable V : Type.

(** Own properties, in creation order. *)
Definition object : Type := list (string * V).

Fixpoint own (o : object) (k : string) : option V :=
  match o with
  | [] => None
  | (k', v) :: o' => if String.eqb k k' then Some v else own o' k
  end.

(** [o[k] = v] on an ordinary data property: an existing property keeps its
    place, a new one is created last. *)
Fixpoint assign (o : object) (k : string) (v : V) : object :=
  match o with
  | [] => [(k, v)]
  | (k', v') :: o' =>
      if String.eqb k k' then (k', v) :: o' else (k', v') :: assign o' k v
  end.

(** What the read [o[k]] yields. *)
Inductive property : Type :=
| Own (v : V)
| Inherited
| Undefined.

Definition lookup (o : object) (k : string) : property :=
  match own o k with
  | Some v => Own v
  | None => if Object_prototype_has k then Inherited else Undefined
  end.

(** [Object.keys(o)]. *)
Definition Object_keys (o : object) : list string :=
  let ks := map fst o in
  ascendingIndices (filter isArrayIndex ks)
    ++ filter (fun k => negb (isArrayIndex k)) ks.
End Object.

Arguments Own {V} v.
Arguments Inherited {V}.
Arguments Undefined {V}.

(** ** The forecast payload *)

(** One entry of [item.weather]; [main] is [None] when the property is
    absent, so that reading it yields [undefined]. *)
Module Weather.
Record t : Type := mk {
  main : option string;
  description : string;
  icon : string
}.
End Weather.

(** [item.main]. *)
Module Main.
Record t : Type := mk {
  temp_min : Z;
  temp_max : Z
}.
End Main.

(** One element of [forecastData.list]; an absent [weather] array behaves as
    the empty one at the only place that reads it ([item.weather[0].main]
    throws in both cases). *)
Module Item.
Record t : Type := mk {
  dt : Z;
  main : Main.t;
  weather : list Weather.t
}.
End Item.

(** The object built at lines 86-92; [date] is the time value of the [Date]
    in milliseconds, for a first sample that is [datable] (see [Date]
    below). *)
Module Daily.
Record t : Type := mk {
  date : Z;
  minTemp : number;
  maxTemp : number;
  weather : Weather.t;
  items : list Item.t
}.
End Daily.

(** Property keys are strings: [undefined] becomes ["undefined"]. *)
Definition ToPropertyKey (v : option string) : string :=
  match v with
  | Some s => s
  | None => "undefined"
  end.

(** [v === k] for a string [k]. *)
Definition strictEquals (v : option string) (k : string) : bool :=
  match v with
  | Some s => String.eqb s k
  | None => false
  end.

(** Values stored in [weatherCounts]: a count, or the string that [+ 1]
    produces from an inherited member; compared with a number such a string
    is [NaN]. *)
Inductive tally : Type :=
| Count (n : Z)
| NotANumber.

(** [(p || 0) + 1]. *)
Definition increment (p : property tally) : tally :=
  match p with
  | Own (Count n) => Count (n + 1)
  | Own NotANumber => NotANumber
  | Inherited => NotANumber
  | Undefined => Count 1
  end.

(** [v > maxCount]. *)
Definition greater (v : tally) (maxCount : Z) : bool :=
  match v with
  | Count n => maxCount <? n
  | NotANumber => false
  end.

(** [weatherCounts[condition] = v]: the [__proto__] setter ignores a value
    that is not an object. *)
Definition assignCount (o : object tally) (k : string) (v : tally)
  : object tally :=
  if String.eqb k "__proto__" then o else assign o k v.

(** Lines 66-69. *)
Definition countWeather (weatherCounts : object tally) (item : Item.t)
  : result (object tally) :=
  match Item.weather item with
  | [] => Throw TypeError
  | w :: _ =>
      let condition := ToPropertyKey (Weather.main w) in
      Ok (assignCount weatherCounts condition
            (increment (lookup weatherCounts condition)))
  end.

(** [item.weather[0].main === condition], the predicate of line 79. *)
Definition hasCondition (condition : string) (item : Item.t) : bool :=
  match Item.weather item with
  | [] => false
  | w :: _ => strictEquals (Weather.main w) condition
  end.

(** Lines 75-83: the state is [(mostCommonWeather, maxCount)].  An item that
    [find] returns satisfies [hasCondition], so its [weather] is not empty,
    and a value that is [greater] is a count. *)
Definition pickWeather (items : list Item.t) (weatherCounts : object tally)
    (st : Weather.t * Z) (condition : string) : result (Weather.t * Z) :=
  match own weatherCounts condition with
  | Some v =>
      if greater v (snd st) then
        match Array_find (hasCondition condition) items with
        | Some item =>
            match Item.weather item, v with
            | w :: _, Count n => Ok (w, n)
            | _, _ => Throw TypeError
            end
        | None => Throw TypeError
        end
      else Ok st
  | None => Ok st
  end.

(** Lines 57-92, the callback of [Object.keys(groupedByDay).map].  The
    initial [items[0].weather[0]] is read after the tally loop, which has
    thrown by then if [items[0]] has no condition entry. *)
Definition summarize (items : list Item.t) : result Daily.t :=
  let minTemp := Math_min (map (fun item => Main.temp_min (Item.main item)) items) in
  let maxTemp := Math_max (map (fun item => Main.temp_max (Item.main item)) items) in
  weatherCounts <- forEach countWeather items [] ;;
  match items with
  | [] => Throw TypeError
  | first :: _ =>
      match Item.weather first with
      | [] => Throw TypeError
      | w0 :: _ =>
          st <- forEach (pickWeather items weatherCounts)
                  (Object_keys weatherCounts) (w0, 0) ;;
          Ok (Daily.mk (Item.dt first * 1000) minTemp maxTemp (fst st) items)
      end
  end.

(** ** Dates *)

(** The time value of a [Date] object: a number of milliseconds since the
    epoch, or [NaN] for an Invalid Date. *)
Inductive timeValue : Type :=
| TimeValue (ms : Z)
| NaN.

(** [new Date(ms)] for an integer [ms]: the time value is [ms] up to
    8.64e15 ms on either side of the epoch and [NaN] beyond. *)
Definition Date (ms : Z) : timeValue :=
  if Z.abs ms <=? 8640000000000000 then TimeValue ms else NaN.

(** A sample whose timestamp gives a valid date at lines 44 and 87. *)
Definition datable (item : Item.t) : bool :=
  match Date (Item.dt item * 1000) with
  | TimeValue _ => true
  | NaN => false
  end.

(** ** Vocabulary of the statements *)

(** Keys in the order of their first occurrence. *)
Definition remember (seen : list string) (k : string) : list string :=
  if existsb (String.eqb k) seen then seen else seen ++ [k].

Definition firstOccurrences (ks : list string) : list string :=
  fold_left remember ks [].

(** [item.weather[0]], when there is one. *)
Definition firstCondition (item : Item.t) : option Weather.t :=
  hd_error (Item.weather item).

(** The key under which [countWeather] counts a sample that has a condition
    entry. *)
Definition conditionKey (w : Weather.t) : string :=
  ToPropertyKey (Weather.main w).

(** How many samples carry the category [c]. *)
Definition occurrences (c : string) (items : list Item.t) : Z :=
  Z.of_nat (List.length (filter (hasCondition c) items)).

(** A sample whose first condition entry carries a category. *)
Definition categorized (item : Item.t) : bool :=
  match Item.weather item with
  | w :: _ => match Weather.main w with Some _ => true | None => false end
  | [] => false
  end.

(** A category that is an ordinary label: neither an array index nor the
    name of a member of [Object.prototype]. *)
Definition plainLabel (c : string) : bool :=
  negb (isArrayIndex c) && negb (Object_prototype_has c).

(** A sample whose first condition entry carries an ordinary label. *)
Definition labelled (item : Item.t) : bool :=
  match Item.weather item with
  | w :: _ =>
      match Weather.main w with
      | Some c => plainLabel c
      | None => false
      end
  | [] => false
  end.

(** The keys under which the samples are counted, in the order of the
    samples. *)
Definition countedKeys (items : list Item.t) : list string :=
  flat_map (fun item => match firstCondition item with
                        | Some w => [conditionKey w]
                        | None => []
                        end) items.

(** [c] is the first key of [ks] that reaches the highest count. *)
Definition firstMaximum (count : string -> Z) (ks : list string) (c : string)
  : Prop :=
  exists before after,
    ks = before ++ c :: after
    /\ Forall (fun k => count k < count c) before
    /\ Forall (fun k => count k <= count c) after.

(** What [weatherCounts] holds once the samples [p], all with ordinary
    labels, have been counted. *)
Definition tallied (p : list Item.t) (wc : object tally) : Prop :=
  map fst wc = firstOccurrences (countedKeys p)
  /\ forall k, own wc k = if occurrences k p =? 0 then None
                          else Some (Count (occurrences k p)).



(** ** The component's props and what it renders *)

(** A value as [forecastData.list] can hold it: only an array has
    [forEach]. *)
Inductive value : Type :=
| VUndefined
| VNull
| VBoolean (b : bool)
| VNumber (z : Z)
| VString (s : string)
| VObject
| VArray (list : list Item.t).

Definition truthy (v : value) : bool :=
  match v with
  | VUndefined | VNull => false
  | VBoolean b => b
  | VNumber z => negb (z =? 0)
  | VString s => negb (String.eqb s "")
  | VObject | VArray _ => true
  end.

Module ForecastData.
Record t : Type := mk {
  list : value
}.
End ForecastData.

(** [forecastData] is [None] for [null] (the initial state) or
    [undefined]; [units] is [settings.units]. *)
Module Props.
Record t : Type := mk {
  forecastData : option ForecastData.t;
  loading : bool;
  units : string
}.
End Props.

Definition truthyData (d : option ForecastData.t) : bool :=
  match d with Some _ => true | None => false end.

(** The three things the component can return: the loading indicator, the
    "Forecast data unavailable" message, or the list of days (with the
    temperature symbol its rows print). *)
Inductive view : Type :=
| LoadingView
| UnavailableView
| FlatList (tempSymbol : string) (data : list Daily.t).

(** The daily summaries a view displays. *)
Definition displayed (v : view) : list Daily.t :=
  match v with
  | FlatList _ data => data
  | _ => []
  end.

(** The host: [toLocaleDateString ms] is [new Date(ms).toLocaleDateString()],
    the rendering, in the host's locale and time zone, of the local calendar
    date of a time value. *)
Class Host : Type := {
  toLocaleDateString : Z -> string
}.

(** Whether the props carry something the component will iterate over:
    [forecastData] and [forecastData.list] are both truthy. *)
Definition available (props : Props.t) : bool :=
  match Props.forecastData props with
  | Some data => truthy (ForecastData.list data)
  | None => false
  end.

Section Aggregator.
Context {host : Host}.

(** The DayKey of a sample (line 44). *)
Definition dayKey (item : Item.t) : string :=
  toLocaleDateString (Item.dt item * 1000).

(** Lines 42-53. *)
Definition groupItem (groupedByDay : object (list Item.t)) (item : Item.t)
  : result (object (list Item.t)) :=
  let date := dayKey item in
  let grouped :=
    match lookup groupedByDay date with
    | Undefined => assign groupedByDay date []
    | _ => groupedByDay
    end in
  match lookup grouped date with
  | Own items => Ok (assign grouped date (items ++ [item]))
  | _ => Throw TypeError
  end.

(** Lines 40-96: [forecastData.list] to the sorted [dailyForecasts].  The
    comparator is the difference of two time values, a number when both
    dates are valid. *)
Definition aggregate (list : list Item.t) : result (List.list Daily.t) :=
  groupedByDay <- forEach groupItem list [] ;;
  dailyForecasts <-
    Array_map (fun date =>
                 match lookup groupedByDay date with
                 | Own items => summarize items
                 | _ => Throw TypeError
                 end)
              (Object_keys groupedByDay) ;;
  Ok (Array_sort (fun a b => Daily.date a - Daily.date b) dailyForecasts).

(** The DayKey of a summary: the local date of its [date]. *)
Definition dayOf (d : Daily.t) : string :=
  toLocaleDateString (Daily.date d).

(** The samples of one day, in the order of the input. *)
Definition sameDay (k : string) (item : Item.t) : bool :=
  String.eqb (dayKey item) k.

Definition bucket (k : string) (l : list Item.t) : list Item.t :=
  filter (sameDay k) l.

(** What [groupedByDay] holds once the samples [l] have been visited: the
    days in order of first appearance, each with its samples in input
    order. *)
Definition grouped (l : list Item.t) (g : object (list Item.t)) : Prop :=
  map fst g = firstOccurrences (map dayKey l)
  /\ forall k, own g k = match bucket k l with [] => None | b => Some b end.

(** A sample whose date renders as the name of an inherited member. *)
Definition inheritedDay (item : Item.t) : bool :=
  Object_prototype_has (dayKey item).

(** A well-formed sample: its date renders as an ordinary key and its first
    condition entry carries a category. *)
Definition well_formed (item : Item.t) : bool :=
  negb (inheritedDay item) && categorized item.

(** Lines 13-33 and 140-149: what the component returns. *)
Definition ForecastScreen (props : Props.t) : result view :=
  let forecastData := Props.forecastData props in
  if Props.loading props && negb (truthyData forecastData) then Ok LoadingView
  else
    match forecastData with
    | None => Ok UnavailableView
    | Some data =>
        if negb (truthy (ForecastData.list data)) then Ok UnavailableView
        else
          let tempSymbol :=
            if String.eqb (Props.units props) "metric" then "°C" else "°F" in
          match ForecastData.list data with
          | VArray list =>
              dailyForecasts <- aggregate list ;;
              Ok (FlatList tempSymbol dailyForecasts)
          | _ => Throw TypeError
          end
    end.
End Aggregator.

(** ** The same code with its arrays on a heap

    [aggregate] treats arrays as values.  To speak of side effects the code
    is embedded a second time with the arrays of samples as objects of a
    heap: the input array [forecastData.list] lives at an address, [[]]
    allocates, [push] updates in place, and the [items] of a summary is the
    address of the bucket array it shares with [groupedByDay]. *)

Definition address : Type := nat.

(** The arrays of samples that exist, by address. *)
Definition heap : Type := list (list Item.t).

Definition read (h : heap) (a : address) : list Item.t := nth a h [].

Fixpoint store (h : heap) (a : address) (v : list Item.t) : heap :=
  match h, a with
  | [], _ => []
  | _ :: h', O => v :: h'
  | x :: h', S a' => x :: store h' a' v
  end.

(** Computations that read and update the heap and may throw; the heap
    survives an exception. *)
Definition M (A : Type) : Type := heap -> result A * heap.

Definition ret {A : Type} (a : A) : M A := fun h => (Ok a, h).

Definition throw {A : Type} (e : error) : M A := fun h => (Throw e, h).

Definition bindM {A B : Type} (m : M A) (k : A -> M B) : M B :=
  fun h =>
    match m h with
    | (Ok a, h') => k a h'
    | (Throw e, h') => (Throw e, h')
    end.

Notation "x <~ m ;; k" := (bindM m (fun x => k))
  (at level 61, m at next level, right associativity).

(** The array literal [[]]. *)
Definition newArray : M address :=
  fun h => (Ok (List.length h), h ++ [[]]).

(** [a.push(item)]. *)
Definition push (a : address) (item : Item.t) : M unit :=
  fun h => (Ok tt, store h a (read h a ++ [item])).

(** [a.length], [a[i]] and the current elements of [a]. *)
Definition lengthOf (a : address) : M nat :=
  fun h => (Ok (List.length (read h a)), h).

Definition elementAt (a : address) (i : nat) : M (option Item.t) :=
  fun h => (Ok (nth_error (read h a) i), h).

Definition contents (a : address) : M (list Item.t) :=
  fun h => (Ok (read h a), h).

(** [a.forEach(body)]: the indices below the initial length are visited in
    order and each element is read when its turn comes. *)
Fixpoint forEachFrom {S : Type} (a : address) (body : S -> Item.t -> M S)
    (i n : nat) (s : S) : M S :=
  match n with
  | O => ret s
  | Datatypes.S n' =>
      x <~ elementAt a i ;;
      match x with
      | Some item => s' <~ body s item ;; forEachFrom a body (Datatypes.S i) n' s'
      | None => forEachFrom a body (Datatypes.S i) n' s
      end
  end.

Fixpoint Array_mapM {A B : Type} (f : A -> M B) (l : list A) : M (list B) :=
  match l with
  | [] => ret []
  | x :: l' => y <~ f x ;; ys <~ Array_mapM f l' ;; ret (y :: ys)
  end.

(** The object of lines 86-92 with [items] as the reference it is. *)
Module DailyRef.
Record t : Type := mk {
  date : Z;
  minTemp : number;
  maxTemp : number;
  weather : Weather.t;
  items : address
}.
End DailyRef.

(** The summary a reference denotes in a heap. *)
Definition resolve (h : heap) (d : DailyRef.t) : Daily.t :=
  Daily.mk (DailyRef.date d) (DailyRef.minTemp d) (DailyRef.maxTemp d)
    (DailyRef.weather d) (read h (DailyRef.items d)).

(** Lines 57-92 on the bucket array at [a], which the callback only
    reads. *)
Definition summarizeAt (a : address) : M DailyRef.t :=
  items <~ contents a ;;
  match summarize items with
  | Ok d =>
      ret (DailyRef.mk (Daily.date d) (Daily.minTemp d) (Daily.maxTemp d)
             (Daily.weather d) a)
  | Throw e => throw e
  end.

Section AggregatorOnHeap.
Context {host : Host}.

(** Lines 42-53; [groupedByDay] maps a date to the address of its array. *)
Definition groupItemAt (groupedByDay : object address) (item : Item.t)
  : M (object address) :=
  let date := dayKey item in
  grouped <~
    match lookup groupedByDay date with
    | Undefined => a <~ newArray ;; ret (assign groupedByDay date a)
    | _ => ret groupedByDay
    end ;;
  match lookup grouped date with
  | Own a => _ <~ push a item ;; ret grouped
  | _ => throw TypeError
  end.

(** Lines 40-96 on the array at the address [list]. *)
Definition aggregateAt (list : address) : M (List.list DailyRef.t) :=
  n <~ lengthOf list ;;
  groupedByDay <~ forEachFrom list groupItemAt 0 n [] ;;
  dailyForecasts <~
    Array_mapM (fun date =>
                  match lookup groupedByDay date with
                  | Own a => summarizeAt a
                  | _ => throw TypeError
                  end)
               (Object_keys groupedByDay) ;;
  ret (Array_sort (fun a b => DailyRef.date a - DailyRef.date b)
         dailyForecasts).

(** [n] successive calls on the same array: what each call returned, read in
    the heap it left, and the final heap. *)
Fixpoint calls (n : nat) (list : address) (h : heap)
  : List.list (result (List.list Daily.t)) * heap :=
  match n with
  | O => ([], h)
  | Datatypes.S n' =>
      let (r, h') := aggregateAt list h in
      let returned :=
        match r with
        | Ok refs => Ok (map (resolve h') refs)
        | Throw e => Throw e
        end in
      let (rs, h'') := calls n' list h' in
      (returned :: rs, h'')
  end.

End AggregatorOnHeap.

(** [groupedByDay] with each address replaced by the array it holds. *)
Definition arraysOf (h : heap) (g : object address) : object (list Item.t) :=
  map (fun p => (fst p, read h (snd p))) g.

(** The heap [h] extends [h0] without touching it, and the arrays that
    [groupedByDay] refers to are distinct arrays allocated since [h0]. *)
Definition allocatedSince (h0 h : heap) (g : object address) : Prop :=
  (exists ext, h = h0 ++ ext)
  /\ Forall (fun a => (List.length h0 <= a < List.length h)%nat) (map snd g)
  /\ NoDup (map snd g).

(** ** [SettingsScreen] (screens/SettingsScreen.js, lines 26-63)

    [settings] is a plain object; the handlers replace it by a copy made with
    the spread syntax in which one property is set. *)

(** The value of a settings property: a string, or anything else (told
    apart by a tag). *)
Inductive jsvalue : Type :=
| JString (s : string)
| JOther (tag : nat).

(** [p === s], where [p] is what a property read yields and [s] a string. *)
Definition isString (p : property jsvalue) (s : string) : bool :=
  match p with
  | Own (JString x) => String.eqb x s
  | _ => false
  end.

Section Spread.
Variable V : Type.

Fixpoint insertEntry (e : string * V) (l : list (string * V))
  : list (string * V) :=
  match l with
  | [] => [e]
  | e' :: l' =>
      if (indexValue (fst e) <=? indexValue (fst e'))%N then e :: l
      else e' :: insertEntry e l'
  end.

(** [{...o}]: a fresh object that receives the own properties of [o] in
    the order of [Object.keys(o)]. *)
Definition spread (o : object V) : object V :=
  fold_right insertEntry [] (filter (fun e => isArrayIndex (fst e)) o)
    ++ filter (fun e => negb (isArrayIndex (fst e))) o.
End Spread.

(** What the handlers of the screen read and change: the [settings] the
    parent holds (the last argument of [setSettings]), the local
    [locationInput], and the alerts raised so far, as (title, message). *)
Module Settings.
Record state : Type := mk {
  settings : object jsvalue;
  locationInput : string;
  alerts : list (string * string)
}.
End Settings.

Definition POPULAR_CITIES : list string :=
  [ "London"; "New York"; "Tokyo"; "Paris"; "Sydney"; "Berlin"; "Cairo";
    "Rio de Janeiro" ].

Definition Alert_alert (title message : string) (st : Settings.state)
  : Settings.state :=
  Settings.mk (Settings.settings st) (Settings.locationInput st)
    (Settings.alerts st ++ [(title, message)]).

Definition setSettings (o : object jsvalue) (st : Settings.state)
  : Settings.state :=
  Settings.mk o (Settings.locationInput st) (Settings.alerts st).

Definition setLocationInput (text : string) (st : Settings.state)
  : Settings.state :=
  Settings.mk (Settings.settings st) text (Settings.alerts st).

Section SettingsScreen.
(** [String.prototype.trim]. *)
Variable trim : string -> string.

(** Lines 31-45. *)
Definition updateLocation (st : Settings.state) : Settings.state :=
  let locationInput := Settings.locationInput st in
  if String.eqb (trim locationInput) "" then
    Alert_alert "Error" "Please enter a valid location" st
  else
    Alert_alert "Success" ("Location updated to " ++ trim locationInput)%string
      (setSettings
         (assign (spread (Settings.settings st)) "location"
            (JString (trim locationInput)))
         st).
End SettingsScreen.

(** Lines 48-54. *)
Definition toggleUnits (st : Settings.state) : Settings.state :=
  let settings := Settings.settings st in
  let newUnits :=
    if isString (lookup settings "units") "metric" then "imperial"
    else "metric" in
  setSettings (assign (spread settings) "units" (JString newUnits)) st.

(** Lines 57-63. *)
Definition selectCity (city : string) (st : Settings.state) : Settings.state :=
  setSettings
    (assign (spread (Settings.settings st)) "location" (JString city))
    (setLocationInput city st).

(** Line 124, the value of the switch, and lines 97 and 104, whether the
    button of a city is drawn as the active one. *)
Definition switchValue (st : Settings.state) : bool :=
  isString (lookup (Settings.settings st) "units") "imperial".

Definition activeCity (st : Settings.state) (city : string) : bool :=
  isString (lookup (Settings.settings st) "location") city.

(** What the user can do on the screen: type in the text field (line 76),
    press "Update Location" (line 82), press the button of a city (line 99)
    or flip the switch (line 123). *)
Inductive event : Type :=
| ChangeText (text : string)
| PressUpdate
| PressCity (city : string)
| FlipSwitch.

(** The buttons that exist are those of [POPULAR_CITIES] (line 92). *)
Definition offered (e : event) : Prop :=
  match e with
  | PressCity city => In city POPULAR_CITIES
  | _ => True
  end.

Section SettingsEvents.
Variable trim : string -> string.

Definition handle (st : Settings.state) (e : event) : Settings.state :=
  match e with
  | ChangeText text => setLocationInput text st
  | PressUpdate => updateLocation trim st
  | PressCity city => selectCity city st
  | FlipSwitch => toggleUnits st
  end.

Definition handleAll (es : list event) (st : Settings.state) : Settings.state :=
  fold_left handle es st.
End SettingsEvents.

(** Settings as the rest of the application needs them: [location] is a
    string that is not empty and [units] is one of the two unit systems. *)
Definition usable (o : object jsvalue) : Prop :=
  (exists city, lookup o "location" = Own (JString city) /\ city <> "")
  /\ (lookup o "units" = Own (JString "metric")
      \/ lookup o "units" = Own (JString "imperial")).

(** ** [App]: fetching the data (App.js, lines 116-118 and 158-209) *)

(** How an awaited request ends: with a response, or rejected with an error
    that carries a response, only a request, or neither. *)
Inductive failure : Type :=
| WithResponse (status : Z)
| WithRequest
| WithMessage (message : string).

Inductive outcome (A : Type) : Type :=
| Resolved (data : A)
| Rejected (error : failure).
Arguments Resolved {A} data.
Arguments Rejected {A} error.

(** The state the function reads and sets, and the labels of the lines
    written with [console.error]. *)
Module App.
Record state (W : Type) : Type := mk {
  weatherData : option W;
  forecastData : option ForecastData.t;
  loading : bool;
  console : list string
}.
End App.

Section AppState.
(** The payload of the current-weather request. *)
Variable W : Type.

Definition setLoading (b : bool) (s : App.state W) : App.state W :=
  App.mk (App.weatherData s) (App.forecastData s) b (App.console s).

Definition setWeatherData (w : W) (s : App.state W) : App.state W :=
  App.mk (Some w) (App.forecastData s) (App.loading s) (App.console s).

Definition setForecastData (f : ForecastData.t) (s : App.state W)
  : App.state W :=
  App.mk (App.weatherData s) (Some f) (App.loading s) (App.console s).

Definition console_error (label : string) (s : App.state W) : App.state W :=
  App.mk (App.weatherData s) (App.forecastData s) (App.loading s)
    (App.console s ++ [label]).

(** Lines 191-205, the [catch] block. *)
Definition reportError (error : failure) (s : App.state W) : App.state W :=
  let s := console_error "Error fetching weather data:" s in
  match error with
  | WithResponse _ => console_error "Server responded with error:" s
  | WithRequest => console_error "No response received:" s
  | WithMessage _ => console_error "Request error:" s
  end.

(** Lines 158-209, one call that runs from start to end, given how its two
    requests end; the second request is only made when the first one
    succeeds. *)
Definition fetchWeatherData (weatherResponse : outcome W)
    (forecastResponse : outcome ForecastData.t) (s : App.state W)
  : App.state W :=
  let s := setLoading true s in
  let s :=
    match weatherResponse with
    | Resolved weather =>
        let s := setWeatherData weather s in
        match forecastResponse with
        | Resolved forecast => setForecastData forecast s
        | Rejected error => reportError error s
        end
    | Rejected error => reportError error s
    end in
  setLoading false s.

(** Successive calls, each with the outcomes of its requests. *)
Definition refreshes (rs : list (outcome W * outcome ForecastData.t))
    (s : App.state W) : App.state W :=
  fold_left (fun s r => fetchWeatherData (fst r) (snd r) s) rs s.

(** The forecast of the last call both of whose requests succeeded. *)
Fixpoint lastForecast (rs : list (outcome W * outcome ForecastData.t))
    (initial : option ForecastData.t) : option ForecastData.t :=
  match rs with
  | [] => initial
  | (Resolved _, Resolved f) :: rs' => lastForecast rs' (Some f)
  | _ :: rs' => lastForecast rs' initial
  end.

(** The current weather of the last call whose first request succeeded. *)
Fixpoint lastWeather (rs : list (outcome W * outcome ForecastData.t))
    (initial : option W) : option W :=
  match rs with
  | [] => initial
  | (Resolved w, _) :: rs' => lastWeather rs' (Some w)
  | _ :: rs' => lastWeather rs' initial
  end.

(** The props [App] passes to [ForecastScreen] (lines 264-269), for a
    [settings.units] that is the string [units]. *)
Definition forecastProps (units : string) (s : App.state W) : Props.t :=
  Props.mk (App.forecastData s) (App.loading s) units.
End AppState.

(** ** A concrete host: the en-US rendering of the UTC calendar date

    A host whose locale is en-US and whose time zone is UTC prints
    month/day/year; the examples below run on it. *)

Definition decimal (z : Z) : string :=
  NilZero.string_of_int (Z.to_int z).

Definition utcDateString (ms : Z) : string :=
  let z := ms / 86400000 + 719468 in
  let era := z / 146097 in
  let doe := z - era * 146097 in
  let yoe := (doe - doe / 1460 + doe / 36524 - doe / 146096) / 365 in
  let doy := doe - (365 * yoe + yoe / 4 - yoe / 100) in
  let mp := (5 * doy + 2) / 153 in
  let d := doy - (153 * mp + 2) / 5 + 1 in
  let m := if mp <? 10 then mp + 3 else mp - 9 in
  let y := yoe + era * 400 + (if m <=? 2 then 1 else 0) in
  (decimal m ++ "/" ++ decimal d ++ "/" ++ decimal y)%string.

Definition utc : Host := {| toLocaleDateString := utcDateString |}.

(** Samples of the examples: a timestamp, the two temperature bounds and one
    condition entry. *)
Definition sample (dt tmin tmax : Z) (category : string) : Item.t :=
  Item.mk dt (Main.mk tmin tmax)
    [Weather.mk (Some category) (category ++ " sky")%string "01d"].


(** A sample whose condition entry has no [main]. *)
Definition unlabelled (dt tmin tmax : Z) : Item.t :=
  Item.mk dt (Main.mk tmin tmax) [Weather.mk None "unknown" "50d"].

(** The scenario of the specification: eight three-hourly samples over two
    days, from midnight UTC of 1 November 2026. *)
Definition midnight : Z := 1793491200.

Definition dayOne : list Item.t :=
  [ sample midnight 10 14 "Clear";
    sample (midnight + 10800) 15 19 "Clear";
    sample (midnight + 21600) 12 16 "Rain";
    sample (midnight + 32400) 18 22 "Clear" ].

Definition dayTwo : list Item.t :=
  [ sample (midnight + 86400) 7 9 "Clouds";
    sample (midnight + 97200) 5 11 "Rain";
    sample (midnight + 108000) 6 13 "Rain";
    sample (midnight + 118800) 8 10 "Clouds" ].

Definition twoDays : list Item.t := dayOne ++ dayTwo.

(** Two samples of the same day, tied at one occurrence each, that arrive
    out of chronological order, and the same two in order. *)
Definition lateClouds : Item.t := sample (midnight + 7200) 10 14 "Clouds".
Definition earlyRain : Item.t := sample (midnight + 3600) 8 12 "Rain".
Definition outOfOrder : list Item.t := [lateClouds; earlyRain].
Definition inOrder : list Item.t := [earlyRain; lateClouds].

(** One sample on each of two days. *)
Definition firstDay : Item.t := sample midnight 10 14 "Clear".
Definition secondDay : Item.t := sample (midnight + 86400) 7 9 "Rain".

(** A heap that holds another array and, at address 1, the scenario. *)
Definition someHeap : heap := [dayTwo; twoDays].

(** The initial settings of [App] (lines 119-122), a state of the settings
    screen over them, and a [trim] for text without white space other than
    spaces. *)
Definition defaultSettings : object jsvalue :=
  [("location", JString "London"); ("units", JString "metric")].

Definition initialScreen : Settings.state :=
  Settings.mk defaultSettings "London" [].

Fixpoint trimStart (s : string) : string :=
  match s with
  | String " " s' => trimStart s'
  | _ => s
  end.

Fixpoint reverse (s acc : string) : string :=
  match s with
  | EmptyString => acc
  | String c s' => reverse s' (String c acc)
  end.

Definition trimSpaces (s : string) : string :=
  reverse (trimStart (reverse (trimStart s) "")) "".

(** A day none of whose samples carries a category, followed by a sample of
    the next day. *)
Definition uncategorizedDay : list Item.t :=
  [ unlabelled midnight 9 13; unlabelled (midnight + 3600) 8 12; secondDay ].

(** A session on the settings screen: a city typed with spaces around it
    and submitted, the switch flipped, a city button pressed, and a blank
    text submitted. *)
Definition session : list event :=
  [ ChangeText "  Oslo "; PressUpdate; FlipSwitch; PressCity "Tokyo";
    ChangeText "   "; PressUpdate ].

(** [App] as it starts (lines 116-118), and two refreshes: one whose
    forecast request gets no response, then one that succeeds with an empty
    forecast. *)
Definition startingApp : App.state string := App.mk None None true [].

Definition twoRefreshes : list (outcome string * outcome ForecastData.t) :=
  [ (Resolved "London now", Rejected WithRequest);
    (Resolved "London later", Resolved (ForecastData.mk (VArray []))) ].

(** * Facts *)

Unset Implicit Arguments.

(** ** Results, [forEach] and [map] *)

Lemma error_unique (e : error) : e = TypeError.
Proof. now destruct e. Qed.

Lemma bind_Ok {A B : Type} (r : result A) (k : A -> result B) (b : B) :
  bind r k = Ok b -> exists a, r = Ok a /\ k a = Ok b.
Proof.
  destruct r as [a|e]; simpl; intros H; [eauto | discriminate].
Qed.

Lemma Array_map_Ok {A B : Type} (f : A -> result B) (l : list A) (ys : list B) :
  Array_map f l = Ok ys <-> map f l = map Ok ys.
Proof.
  revert ys; induction l as [|x l IH]; intros ys; simpl.
  - split; intros H.
    + now inversion H.
    + destruct ys; [reflexivity | discriminate].
  - split; intros H.
    + apply bind_Ok in H as (y & Hy & H).
      apply bind_Ok in H as (ys' & Hys & H).
      inversion H; subst; simpl.
      rewrite Hy; f_equal; now apply IH.
    + destruct ys as [|y ys]; [discriminate|].
      simpl in H; inversion H as [[Hy Hys]].
      rewrite Hy; simpl.
      apply IH in Hys; rewrite Hys; reflexivity.
Qed.

Lemma Array_map_total {A B : Type} (f : A -> result B) (l : list A) :
  (forall x, In x l -> exists y, f x = Ok y) ->
  exists ys, Array_map f l = Ok ys.
Proof.
  induction l as [|x l IH]; intros H; simpl; [eauto|].
  destruct (H x) as (y & Hy); [now left|].
  destruct IH as (ys & Hys); [intros; apply H; now right|].
  rewrite Hy, Hys; simpl; eauto.
Qed.

Lemma Array_map_In {A B : Type} (f : A -> result B) (l : list A) (ys : list B) :
  Array_map f l = Ok ys ->
  forall y, In y ys <-> exists x, In x l /\ f x = Ok y.
Proof.
  intros H%Array_map_Ok y; split.
  - intros Hy.
    apply (in_map Ok) in Hy; rewrite <- H in Hy.
    apply in_map_iff in Hy as (x & Hx & Hin); eauto.
  - intros (x & Hin & Hx).
    apply (in_map f) in Hin; rewrite H, Hx in Hin.
    apply in_map_iff in Hin as (y' & Heq & Hin); now inversion Heq; subst.
Qed.

Lemma Array_map_Throw {A B : Type} (f : A -> result B) (l : list A) (x : A) (e : error) :
  In x l -> f x = Throw e -> Array_map f l = Throw TypeError.
Proof.
  intros Hin Hx.
  destruct (Array_map f l) as [ys|e'] eqn:E; [|now rewrite (error_unique e')].
  apply Array_map_Ok in E.
  apply (in_map f) in Hin; rewrite E, Hx in Hin.
  apply in_map_iff in Hin as (y & Heq & _); discriminate.
Qed.

Lemma Array_map_Permutation {A B : Type} (f : A -> result B) (l l' : list A) (ys : list B) :
  Permutation l l' -> Array_map f l = Ok ys ->
  exists ys', Array_map f l' = Ok ys' /\ Permutation ys ys'.
Proof.
  intros HP H%Array_map_Ok.
  apply (Permutation_map f), Permutation_sym in HP; rewrite H in HP.
  apply Permutation_map_inv in HP as (ys' & Heq & HP').
  exists ys'; split; [now apply Array_map_Ok | exact HP'].
Qed.

(** ** Sorting by an integer key *)

Section SortFacts.
Variable A : Type.
Variable key : A -> Z.

Abbreviation byKey := (fun a b : A => key a - key b).
Abbreviation ascending := (StronglySorted (fun a b : A => key a <= key b)).

Lemma sort_insert_Permutation (x : A) (l : list A) :
  Permutation (sort_insert byKey x l) (x :: l).
Proof.
  induction l as [|y l IH]; simpl; [reflexivity|].
  destruct (key x - key y <=? 0); [reflexivity|].
  rewrite IH; apply perm_swap.
Qed.

Lemma Array_sort_Permutation (l : list A) :
  Permutation (Array_sort byKey l) l.
Proof.
  induction l as [|x l IH]; simpl; [reflexivity|].
  rewrite sort_insert_Permutation; now constructor.
Qed.

Lemma sort_insert_ascending (x : A) (l : list A) :
  ascending l -> ascending (sort_insert byKey x l).
Proof.
  induction 1 as [|y l Hl IH Hy]; simpl.
  - repeat constructor.
  - destruct (Z.leb_spec (key x - key y) 0) as [Hle|Hgt].
    + constructor; [now constructor|].
      constructor; [lia|].
      rewrite Forall_forall in *; intros z Hz; specialize (Hy z Hz); lia.
    + constructor; [exact IH|].
      rewrite Forall_forall in *; intros z Hz.
      apply (Permutation_in _ (sort_insert_Permutation x l)) in Hz.
      destruct Hz as [<-|Hz]; [lia | now apply Hy].
Qed.

Lemma Array_sort_ascending (l : list A) : ascending (Array_sort byKey l).
Proof.
  induction l as [|x l IH]; simpl; [constructor|].
  now apply sort_insert_ascending.
Qed.

(** Two ascending arrangements of the same elements coincide when no two
    elements share a key. *)
Lemma ascending_unique (l l' : list A) :
  ascending l -> ascending l' -> Permutation l l' -> NoDup (map key l) ->
  l = l'.
Proof.
  intros Hl; revert l'; induction Hl as [|x l Hl IH Hx]; intros l' Hl' HP Hnd.
  - now apply Permutation_nil in HP.
  - destruct l' as [|y l'].
    + now apply Permutation_sym, Permutation_nil in HP.
    + assert (x = y) as <-.
      { assert (Hin : In x (y :: l')) by (apply (Permutation_in _ HP); now left).
        destruct Hin as [Heq|Hin]; [now symmetry|].
        assert (Hin' : In y (x :: l))
          by (apply (Permutation_in _ (Permutation_sym HP)); now left).
        destruct Hin' as [Heq|Hin']; [exact Heq|exfalso].
        inversion Hnd as [|? ? Hnotin _]; subst.
        inversion Hl' as [|? ? _ Hy]; subst.
        rewrite Forall_forall in Hx, Hy.
        specialize (Hx _ Hin'); specialize (Hy _ Hin).
        apply Hnotin.
        replace (key x) with (key y) by lia.
        now apply in_map. }
      inversion Hnd; inversion Hl'; subst.
      f_equal; apply IH; auto.
      now apply Permutation_cons_inv in HP.
Qed.
End SortFacts.

(** ** Keys in order of first occurrence *)

Lemma existsb_eqb_In (k : string) (l : list string) :
  existsb (String.eqb k) l = true <-> In k l.
Proof.
  rewrite existsb_exists; split.
  - intros (x & Hin & Heq); apply String.eqb_eq in Heq; now subst.
  - intros Hin; exists k; split; [exact Hin | apply String.eqb_refl].
Qed.

Lemma existsb_eqb_notIn (k : string) (l : list string) :
  existsb (String.eqb k) l = false <-> ~ In k l.
Proof.
  rewrite <- existsb_eqb_In; destruct (existsb _ l); split; congruence.
Qed.

Lemma remember_In (seen : list string) (k x : string) :
  In x (remember seen k) <-> In x seen \/ x = k.
Proof.
  unfold remember; destruct (existsb (String.eqb k) seen) eqn:E.
  - apply existsb_eqb_In in E; split; [auto | intros [H| ->]; auto].
  - rewrite in_app_iff; simpl; intuition.
Qed.

Lemma remember_NoDup (seen : list string) (k : string) :
  NoDup seen -> NoDup (remember seen k).
Proof.
  intros Hnd; unfold remember; destruct (existsb (String.eqb k) seen) eqn:E; auto.
  apply existsb_eqb_notIn in E.
  apply NoDup_app; [exact Hnd | repeat constructor; intros [] | ].
  intros x Hx [<-|[]]; auto.
Qed.

Lemma fold_remember_prefix (ks seen : list string) :
  exists ext, fold_left remember ks seen = seen ++ ext.
Proof.
  revert seen; induction ks as [|k ks IH]; intros seen; simpl.
  - exists []; now rewrite app_nil_r.
  - destruct (IH (remember seen k)) as (ext & ->).
    unfold remember; destruct (existsb _ seen); [eauto|].
    exists (k :: ext); now rewrite <- app_assoc.
Qed.

Lemma firstOccurrences_snoc (ks : list string) (k : string) :
  firstOccurrences (ks ++ [k]) = remember (firstOccurrences ks) k.
Proof. unfold firstOccurrences; now rewrite fold_left_app. Qed.

Lemma firstOccurrences_In (ks : list string) (x : string) :
  In x (firstOccurrences ks) <-> In x ks.
Proof.
  induction ks as [|k ks IH] using rev_ind; [reflexivity|].
  rewrite firstOccurrences_snoc, remember_In, in_app_iff, IH; simpl; intuition.
Qed.

Lemma firstOccurrences_NoDup (ks : list string) : NoDup (firstOccurrences ks).
Proof.
  induction ks as [|k ks IH] using rev_ind; [constructor|].
  rewrite firstOccurrences_snoc; now apply remember_NoDup.
Qed.

Lemma firstOccurrences_split (pre post : list string) (k : string) :
  ~ In k pre ->
  exists ext, firstOccurrences (pre ++ k :: post)
              = firstOccurrences pre ++ k :: ext.
Proof.
  intros Hk; unfold firstOccurrences; rewrite fold_left_app; simpl.
  fold (firstOccurrences pre).
  replace (remember (firstOccurrences pre) k) with (firstOccurrences pre ++ [k]).
  - destruct (fold_remember_prefix post (firstOccurrences pre ++ [k])) as (ext & ->).
    exists ext; now rewrite <- app_assoc.
  - unfold remember.
    rewrite (proj2 (existsb_eqb_notIn k (firstOccurrences pre))); [reflexivity|].
    now rewrite firstOccurrences_In.
Qed.

Lemma NoDup_split_unique {A : Type} (a a' b b' : list A) (x : A) :
  NoDup (a ++ x :: b) -> a ++ x :: b = a' ++ x :: b' -> a = a'.
Proof.
  revert a'; induction a as [|y a IH]; intros a' Hnd Heq.
  - destruct a' as [|y' a']; [reflexivity|].
    simpl in *; inversion Heq; subst.
    inversion Hnd as [|? ? Hnotin _]; subst.
    exfalso; apply Hnotin, in_elt.
  - destruct a' as [|y' a'].
    + simpl in *; inversion Heq; subst.
      inversion Hnd as [|? ? Hnotin _]; subst.
      exfalso; apply Hnotin, in_elt.
    + simpl in *; inversion Heq; subst.
      inversion Hnd; subst; f_equal; eauto.
Qed.

(** ** Objects *)

Section ObjectFacts.
Variable V : Type.
Implicit Type o : object V.

Lemma own_assign_eq o k v : own (assign o k v) k = Some v.
Proof.
  induction o as [|[k' v'] o IH]; simpl.
  - now rewrite String.eqb_refl.
  - destruct (String.eqb k k') eqn:E; simpl; rewrite E; auto.
Qed.

Lemma own_assign_neq o k k' v : k <> k' -> own (assign o k v) k' = own o k'.
Proof.
  intros Hne; induction o as [|[k0 v0] o IH]; simpl.
  - now rewrite (proj2 (String.eqb_neq k' k)) by congruence.
  - destruct (String.eqb k k0) eqn:E; simpl; [|now rewrite IH].
    apply String.eqb_eq in E; subst k0.
    now rewrite (proj2 (String.eqb_neq k' k)) by congruence.
Qed.

Lemma own_keys o k : own o k = None <-> ~ In k (map fst o).
Proof.
  induction o as [|[k' v'] o IH]; simpl; [intuition|].
  destruct (String.eqb_spec k k') as [->|Hne].
  - split; [discriminate | intros H; exfalso; auto].
  - rewrite IH; intuition.
Qed.

Lemma keys_assign o k v : map fst (assign o k v) = remember (map fst o) k.
Proof.
  unfold remember; induction o as [|[k' v'] o IH]; simpl; [reflexivity|].
  destruct (String.eqb k k'); simpl; [reflexivity|].
  rewrite IH; now destruct (existsb _ (map fst o)).
Qed.

Lemma insertIndex_Permutation (k : string) (l : list string) :
  Permutation (insertIndex k l) (k :: l).
Proof.
  induction l as [|k' l IH]; simpl; [reflexivity|].
  destruct (_ <=? _)%N; [reflexivity|].
  rewrite IH; apply perm_swap.
Qed.

Lemma ascendingIndices_Permutation (l : list string) :
  Permutation (ascendingIndices l) l.
Proof.
  induction l as [|k l IH]; simpl; [reflexivity|].
  rewrite insertIndex_Permutation; now constructor.
Qed.

Lemma filter_split_Permutation {A : Type} (f : A -> bool) (l : list A) :
  Permutation (filter f l ++ filter (fun x => negb (f x)) l) l.
Proof.
  induction l as [|x l IH]; simpl; [reflexivity|].
  destruct (f x); simpl.
  - now constructor.
  - rewrite <- Permutation_middle; now constructor.
Qed.

Lemma Object_keys_Permutation o : Permutation (Object_keys o) (map fst o).
Proof.
  unfold Object_keys.
  rewrite ascendingIndices_Permutation; apply filter_split_Permutation.
Qed.

Lemma Object_keys_plain o :
  Forall (fun k => isArrayIndex k = false) (map fst o) ->
  Object_keys o = map fst o.
Proof.
  unfold Object_keys; generalize (map fst o) as ks.
  induction 1 as [|k ks Hk Hks IH]; [reflexivity|].
  simpl; rewrite Hk; simpl.
  assert (Hnil : filter isArrayIndex ks = []).
  { clear IH; induction Hks as [|k' ks Hk' Hks IH]; simpl; [reflexivity|].
    now rewrite Hk'. }
  rewrite Hnil in *; simpl in *; now f_equal.
Qed.

Lemma Object_keys_In o k : In k (Object_keys o) <-> In k (map fst o).
Proof.
  split; apply Permutation_in;
    [|apply Permutation_sym]; apply Object_keys_Permutation.
Qed.

End ObjectFacts.

(** ** Grouping by day (lines 40-53) *)

Lemma remember_idempotent (seen : list string) (k : string) :
  remember (remember seen k) k = remember seen k.
Proof.
  unfold remember at 1.
  rewrite (proj2 (existsb_eqb_In k (remember seen k))); [reflexivity|].
  apply remember_In; now right.
Qed.

Section GroupFacts.
Context {host : Host}.

Lemma bucket_nil (k : string) (l : list Item.t) :
  bucket k l = [] <-> ~ In k (map dayKey l).
Proof.
  unfold bucket; induction l as [|it l IH]; simpl; [intuition|].
  unfold sameDay at 1.
  destruct (String.eqb_spec (dayKey it) k) as [->|Hne].
  - split; [discriminate | intros H; exfalso; auto].
  - rewrite IH; intuition.
Qed.

Lemma bucket_snoc (k : string) (l : list Item.t) (it : Item.t) :
  bucket k (l ++ [it])
  = bucket k l ++ (if String.eqb (dayKey it) k then [it] else []).
Proof. unfold bucket; now rewrite filter_app. Qed.

Lemma bucket_sameDay (k : string) (l : list Item.t) (it : Item.t) :
  In it (bucket k l) <-> In it l /\ dayKey it = k.
Proof.
  unfold bucket; rewrite filter_In; unfold sameDay.
  now rewrite String.eqb_eq.
Qed.

Lemma groupItem_inherited (l : list Item.t) (g : object (list Item.t)) (it : Item.t) :
  grouped l g -> ~ In (dayKey it) (map dayKey l) ->
  inheritedDay it = true ->
  groupItem g it = Throw TypeError.
Proof.
  intros [_ Hown] Hnew Hinh; unfold groupItem, lookup.
  apply bucket_nil in Hnew; unfold inheritedDay in Hinh.
  cbv zeta; rewrite !Hown, !Hnew, !Hinh.
  now rewrite Hown, Hnew.
Qed.

Lemma groupItem_grouped (l : list Item.t) (g : object (list Item.t)) (it : Item.t) :
  grouped l g ->
  In (dayKey it) (map dayKey l) \/ inheritedDay it = false ->
  exists g', groupItem g it = Ok g' /\ grouped (l ++ [it]) g'.
Proof.
  intros [Hkeys Hown] Hcase; unfold groupItem, lookup.
  assert (Hstep : forall g0 b,
             map fst g0 = remember (map fst g) (dayKey it) ->
             own g0 (dayKey it) = Some b ->
             b = bucket (dayKey it) l ->
             (forall k, k <> dayKey it -> own g0 k = own g k) ->
             grouped (l ++ [it]) (assign g0 (dayKey it) (b ++ [it]))).
  { intros g0 b Hk0 Hb Hbl Hother; split.
    - rewrite keys_assign, Hk0, remember_idempotent, Hkeys.
      rewrite map_app; simpl; now rewrite firstOccurrences_snoc.
    - intros k; rewrite bucket_snoc.
      destruct (String.eqb_spec (dayKey it) k) as [<-|Hne].
      + rewrite own_assign_eq, <- Hbl.
        now destruct b.
      + rewrite own_assign_neq, Hother, Hown, app_nil_r by congruence.
        reflexivity. }
  rewrite Hown.
  destruct (bucket (dayKey it) l) as [|x b] eqn:Hb.
  - destruct Hcase as [Hin|Hinh]; [now apply bucket_nil in Hb|].
    unfold inheritedDay in Hinh; rewrite Hinh; unfold lookup.
    rewrite own_assign_eq.
    eexists; split; [reflexivity|].
    apply Hstep; auto using own_assign_eq, keys_assign.
    intros k Hk; now apply own_assign_neq.
  - rewrite Hown, Hb.
    eexists; split; [reflexivity|].
    apply Hstep; auto.
    + unfold remember.
      rewrite (proj2 (existsb_eqb_In _ _)); [reflexivity|].
      rewrite Hkeys, firstOccurrences_In.
      apply Decidable.not_not; [|rewrite <- bucket_nil; congruence].
      destruct (in_dec string_dec (dayKey it) (map dayKey l)); [left|right]; auto.
    + now rewrite Hown, Hb.
Qed.

Lemma group_from (l2 l1 : list Item.t) (g : object (list Item.t)) :
  existsb inheritedDay l1 = false -> grouped l1 g ->
  if existsb inheritedDay l2
  then forEach groupItem l2 g = Throw TypeError
  else exists g', forEach groupItem l2 g = Ok g' /\ grouped (l1 ++ l2) g'.
Proof.
  revert l1 g; induction l2 as [|it l2 IH]; intros l1 g Hl1 Hg; simpl.
  - exists g; now rewrite app_nil_r.
  - destruct (inheritedDay it) eqn:Hinh; simpl.
    + rewrite (groupItem_inherited l1 g it Hg); auto.
      intros Hin; apply in_map_iff in Hin as (it' & Heq & Hin).
      assert (inheritedDay it' = false) as Hf.
      { destruct (inheritedDay it') eqn:E; [|reflexivity].
        rewrite <- Hl1; symmetry; apply existsb_exists; eauto. }
      unfold inheritedDay in *; congruence.
    + destruct (groupItem_grouped l1 g it Hg) as (g' & -> & Hg'); [now right|]; simpl.
      specialize (IH (l1 ++ [it]) g').
      rewrite <- app_assoc in IH; apply IH; auto.
      rewrite existsb_app; simpl; now rewrite Hl1, Hinh.
Qed.

(** [groupedByDay] after the loop: the days in order of first appearance,
    each with its samples in input order; the loop throws exactly when a
    date renders as the name of an inherited member. *)
Lemma group_spec (l : list Item.t) :
  if existsb inheritedDay l
  then forEach groupItem l [] = Throw TypeError
  else exists g, forEach groupItem l [] = Ok g /\ grouped l g.
Proof.
  apply (group_from l [] []); [reflexivity|].
  split; [reflexivity | intros k; reflexivity].
Qed.
End GroupFacts.

(** ** Reducing one day (lines 57-92) *)

Lemma Math_min_spec (l : list Z) :
  l <> [] ->
  exists m, Math_min l = Finite m /\ In m l /\ Forall (fun x => m <= x) l.
Proof.
  induction l as [|x l IH]; [congruence|intros _].
  destruct l as [|y l].
  - exists x; simpl; repeat split; auto. constructor; [lia|constructor].
  - destruct IH as (m & Hm & Hin & Hall); [discriminate|].
    change (Math_min (x :: y :: l))
      with (match Math_min (y :: l) with
            | Finite m => Finite (Z.min x m) | _ => Finite x end).
    rewrite Hm; exists (Z.min x m); split; [reflexivity|split].
    + destruct (Z.min_spec x m) as [[_ ->]|[_ ->]]; [now left | now right].
    + constructor; [lia|].
      eapply Forall_impl; [|exact Hall]; simpl; intros; lia.
Qed.

Lemma Math_max_spec (l : list Z) :
  l <> [] ->
  exists m, Math_max l = Finite m /\ In m l /\ Forall (fun x => x <= m) l.
Proof.
  induction l as [|x l IH]; [congruence|intros _].
  destruct l as [|y l].
  - exists x; simpl; repeat split; auto. constructor; [lia|constructor].
  - destruct IH as (m & Hm & Hin & Hall); [discriminate|].
    change (Math_max (x :: y :: l))
      with (match Math_max (y :: l) with
            | Finite m => Finite (Z.max x m) | _ => Finite x end).
    rewrite Hm; exists (Z.max x m); split; [reflexivity|split].
    + destruct (Z.max_spec x m) as [[_ ->]|[_ ->]]; [now right | now left].
    + constructor; [lia|].
      eapply Forall_impl; [|exact Hall]; simpl; intros; lia.
Qed.


Lemma countWeather_total (items : list Item.t) (wc : object tally) :
  Forall (fun it => Item.weather it <> []) items ->
  exists wc', forEach countWeather items wc = Ok wc'.
Proof.
  intros H; revert wc; induction H as [|x items Hx _ IH]; intros wc; simpl.
  - eauto.
  - unfold countWeather at 1; destruct (Item.weather x); [congruence|]; simpl.
    apply IH.
Qed.

Lemma assignCount_keys (o : object tally) (k : string) (v : tally) (x : string) :
  In x (map fst (assignCount o k v)) -> In x (map fst o) \/ x = k.
Proof.
  unfold assignCount; destruct (String.eqb k "__proto__"); [auto|].
  rewrite keys_assign; apply remember_In.
Qed.

(** Every key of [weatherCounts] is the key of some counted sample. *)
Lemma countWeather_keys (items : list Item.t) (wc wc' : object tally) :
  forEach countWeather items wc = Ok wc' ->
  Forall (fun it => Item.weather it <> []) items
  /\ forall k, In k (map fst wc') ->
       In k (map fst wc)
       \/ exists it w, In it items /\ firstCondition it = Some w
                       /\ conditionKey w = k.
Proof.
  revert wc; induction items as [|x items IH]; intros wc H; simpl in H.
  - inversion H; subst; auto.
  - apply bind_Ok in H as (wc1 & Hx & H).
    apply IH in H as [Hall Hkeys].
    unfold countWeather in Hx.
    destruct (Item.weather x) as [|w ws] eqn:Hw; [discriminate|].
    inversion Hx; subst wc1; clear Hx.
    split; [constructor; [congruence | exact Hall]|].
    intros k Hk; destruct (Hkeys k Hk) as [Hin|(it & w' & Hin & Hf & Hc)].
    + apply assignCount_keys in Hin as [Hin| ->]; [now left|right].
      exists x, w; repeat split; [now left|].
      unfold firstCondition; now rewrite Hw.
    + right; exists it, w'; repeat split; auto; now right.
Qed.

Lemma find_first {A : Type} (p : A -> bool) (l : list A) (x : A) :
  find p l = Some x ->
  exists pre post, l = pre ++ x :: post /\ p x = true
                   /\ Forall (fun y => p y = false) pre.
Proof.
  induction l as [|y l IH]; simpl; [discriminate|].
  destruct (p y) eqn:E.
  - intros [= ->]; exists [], l; auto.
  - intros (pre & post & -> & Hx & Hpre)%IH.
    exists (y :: pre), post; auto.
Qed.

Lemma hasCondition_first (k : string) (it : Item.t) :
  hasCondition k it = true ->
  exists w, firstCondition it = Some w /\ Weather.main w = Some k.
Proof.
  unfold hasCondition, firstCondition.
  destruct (Item.weather it) as [|w ws]; [discriminate|].
  unfold strictEquals; destruct (Weather.main w) as [c|] eqn:E; [|discriminate].
  intros ->%String.eqb_eq; exists w; split; [reflexivity | exact E].
Qed.

(** The selection loop only ever holds the first condition entry of a
    sample of the day. *)
Lemma pickWeather_first (items : list Item.t) (wc : object tally)
    (keys : list string) (st st' : Weather.t * Z) :
  forEach (pickWeather items wc) keys st = Ok st' ->
  (exists it, In it items /\ firstCondition it = Some (fst st)) ->
  exists it, In it items /\ firstCondition it = Some (fst st').
Proof.
  revert st; induction keys as [|k keys IH]; intros st H Hst; simpl in H.
  - now inversion H; subst.
  - apply bind_Ok in H as (st1 & Hk & H).
    apply (IH _ H); clear IH H.
    unfold pickWeather in Hk.
    destruct (own wc k) as [v|]; [|now inversion Hk; subst].
    destruct (greater v (snd st)); [|now inversion Hk; subst].
    unfold Array_find in Hk.
    destruct (find (hasCondition k) items) as [it|] eqn:Hf; [|discriminate].
    apply find_some in Hf as [Hin Hc].
    destruct (Item.weather it) as [|w ws] eqn:Hw; [discriminate|].
    destruct v; inversion Hk; subst; simpl.
    exists it; split; [exact Hin|].
    unfold firstCondition; now rewrite Hw.
Qed.

(** The selection loop completes when every key it meets belongs to a
    sample that [find] can recover. *)
Lemma pickWeather_total (items : list Item.t) (wc : object tally)
    (keys : list string) (st : Weather.t * Z) :
  (forall k, In k keys -> own wc k <> None ->
             exists it, In it items /\ hasCondition k it = true) ->
  exists st', forEach (pickWeather items wc) keys st = Ok st'.
Proof.
  revert st; induction keys as [|k keys IH]; intros st H; simpl; [eauto|].
  assert (exists st1, pickWeather items wc st k = Ok st1) as (st1 & ->).
  { unfold pickWeather.
    destruct (own wc k) as [v|] eqn:Hv; [|eauto].
    destruct (greater v (snd st)) eqn:Hg; [|eauto].
    destruct (H k) as (it & Hin & Hc); [now left | congruence |].
    unfold Array_find.
    destruct (find (hasCondition k) items) as [it'|] eqn:Hf.
    - apply find_some in Hf as [_ Hc'].
      apply hasCondition_first in Hc' as (w & Hw & _).
      unfold firstCondition in Hw.
      destruct (Item.weather it'); [discriminate|].
      destruct v; [eauto | discriminate].
    - now rewrite (find_none _ _ Hf it Hin) in Hc. }
  simpl; apply IH; intros; apply H; auto; now right.
Qed.

Lemma categorized_hasCondition (it : Item.t) :
  categorized it = true ->
  exists w c, firstCondition it = Some w /\ Weather.main w = Some c
              /\ conditionKey w = c /\ hasCondition c it = true.
Proof.
  unfold categorized, firstCondition, hasCondition, conditionKey.
  destruct (Item.weather it) as [|w ws]; [discriminate|].
  destruct (Weather.main w) as [c|] eqn:E; [intros _|discriminate].
  exists w, c; rewrite E; simpl; repeat split; apply String.eqb_refl.
Qed.

Lemma summarize_Ok (items : list Item.t) (d : Daily.t) :
  summarize items = Ok d ->
  exists first rest,
    items = first :: rest
    /\ Daily.date d = Item.dt first * 1000
    /\ Daily.items d = items
    /\ Daily.minTemp d
       = Math_min (map (fun item => Main.temp_min (Item.main item)) items)
    /\ Daily.maxTemp d
       = Math_max (map (fun item => Main.temp_max (Item.main item)) items)
    /\ Forall (fun it => Item.weather it <> []) items
    /\ exists it, In it items /\ firstCondition it = Some (Daily.weather d).
Proof.
  unfold summarize; intros H.
  apply bind_Ok in H as (wc & Hwc & H).
  apply countWeather_keys in Hwc as [Hall _].
  destruct items as [|first rest]; [discriminate|].
  destruct (Item.weather first) as [|w0 ws] eqn:Hw; [discriminate|].
  apply bind_Ok in H as (st & Hst & H).
  apply pickWeather_first in Hst.
  - inversion H; subst; simpl.
    exists first, rest; repeat split; auto.
  - exists first; split; [now left|].
    unfold firstCondition; now rewrite Hw.
Qed.

Lemma summarize_total (items : list Item.t) :
  items <> [] -> Forall (fun it => categorized it = true) items ->
  exists d, summarize items = Ok d.
Proof.
  intros Hne Hall; unfold summarize.
  destruct (countWeather_total items []) as (wc & Hwc).
  { eapply Forall_impl; [|exact Hall]; simpl; intros it.
    unfold categorized; destruct (Item.weather it); [discriminate | congruence]. }
  rewrite Hwc; simpl.
  destruct items as [|first rest]; [congruence|].
  inversion Hall as [|? ? Hfirst _]; subst.
  destruct (Item.weather first) as [|w0 ws] eqn:Hw;
    [unfold categorized in Hfirst; now rewrite Hw in Hfirst|].
  destruct (pickWeather_total (first :: rest) wc (Object_keys wc) (w0, 0))
    as (st & ->); [|simpl; eauto].
  intros k Hk _.
  apply Object_keys_In in Hk.
  apply countWeather_keys in Hwc as [_ Hkeys].
  destruct (Hkeys k Hk) as [[]|(it & w & Hin & Hf & Hc)].
  exists it; split; [exact Hin|].
  rewrite Forall_forall in Hall.
  destruct (categorized_hasCondition it (Hall it Hin)) as (w' & c & Hf' & _ & Hc' & Hh).
  congruence.
Qed.


(** ** A sample whose condition entry has no category *)






(** ** The whole aggregation (lines 40-96) *)

Lemma Array_map_ext_in {A B : Type} (f g : A -> result B) (l : list A) :
  (forall x, In x l -> f x = g x) -> Array_map f l = Array_map g l.
Proof.
  induction l as [|x l IH]; intros H; simpl; [reflexivity|].
  rewrite (H x) by now left.
  rewrite IH; [reflexivity | intros; apply H; now right].
Qed.

Lemma Array_map_keys {A B : Type} (f : A -> result B) (h : B -> A)
    (l : list A) (ys : list B) :
  (forall x y, In x l -> f x = Ok y -> h y = x) ->
  Array_map f l = Ok ys -> map h ys = l.
Proof.
  revert ys; induction l as [|x l IH]; intros ys Hh H; simpl in H.
  - now inversion H.
  - apply bind_Ok in H as (y & Hy & H).
    apply bind_Ok in H as (ys' & Hys & H).
    inversion H; subst; simpl; f_equal.
    + apply Hh; [now left | exact Hy].
    + apply IH; [|exact Hys]. intros; apply Hh; auto; now right.
Qed.

Lemma existsb_Permutation {A : Type} (p : A -> bool) (l l' : list A) :
  Permutation l l' -> existsb p l = existsb p l'.
Proof.
  induction 1; simpl; try congruence.
  now destruct (p x), (p y).
Qed.

Section AggregateFacts.
Context {host : Host}.

Abbreviation byDate := (fun a b : Daily.t => Daily.date a - Daily.date b).
Abbreviation ascendingDates :=
  (StronglySorted (fun a b : Daily.t => Daily.date a <= Daily.date b)).

Lemma grouped_lookup (l : list Item.t) (g : object (list Item.t)) (k : string) :
  grouped l g -> In k (Object_keys g) ->
  lookup g k = Own (bucket k l) /\ bucket k l <> [] /\ In k (map dayKey l).
Proof.
  intros [Hkeys Hown] Hk.
  apply Object_keys_In in Hk; rewrite Hkeys, firstOccurrences_In in Hk.
  assert (Hne : bucket k l <> []) by (rewrite bucket_nil; auto).
  unfold lookup; rewrite Hown.
  destruct (bucket k l); [congruence | auto].
Qed.

Lemma summarize_bucket_day (l : list Item.t) (k : string) (d : Daily.t) :
  summarize (bucket k l) = Ok d -> dayOf d = k /\ Daily.items d = bucket k l.
Proof.
  intros (first & rest & Hb & Hdate & Hitems & _)%summarize_Ok.
  split; [|exact Hitems].
  assert (Hin : In first (bucket k l)) by (rewrite Hb; now left).
  apply bucket_sameDay in Hin as [_ <-].
  unfold dayOf, dayKey; now rewrite Hdate.
Qed.

(** The aggregation, with the bookkeeping of [groupedByDay] resolved: it
    throws when a date renders as an inherited name, and otherwise reduces
    the day buckets, taken in the key order of the object, and sorts. *)
Lemma aggregate_unfold (l : list Item.t) :
  if existsb inheritedDay l
  then aggregate l = Throw TypeError
  else exists keys,
      Permutation keys (firstOccurrences (map dayKey l))
      /\ aggregate l
         = (dailyForecasts <- Array_map (fun k => summarize (bucket k l)) keys ;;
            Ok (Array_sort byDate dailyForecasts)).
Proof.
  unfold aggregate; pose proof (group_spec l) as H.
  destruct (existsb inheritedDay l); [now rewrite H|].
  destruct H as (g & -> & Hg); simpl.
  exists (Object_keys g); split.
  - rewrite Object_keys_Permutation; now destruct Hg as [-> _].
  - erewrite Array_map_ext_in; [reflexivity|].
    intros k Hk; simpl.
    now destruct (grouped_lookup l g k Hg Hk) as (-> & _).
Qed.

Lemma aggregate_Ok (l : list Item.t) (out : list Daily.t) :
  aggregate l = Ok out ->
  existsb inheritedDay l = false
  /\ Permutation (map dayOf out) (firstOccurrences (map dayKey l))
  /\ (forall d, In d out -> summarize (bucket (dayOf d) l) = Ok d)
  /\ ascendingDates out.
Proof.
  intros H; pose proof (aggregate_unfold l) as Hu.
  destruct (existsb inheritedDay l); [congruence|].
  destruct Hu as (keys & Hkeys & Hu); rewrite Hu in H; clear Hu.
  apply bind_Ok in H as (dF & HdF & H); inversion H; subst out; clear H.
  split; [reflexivity|].
  assert (Hday : forall k d, In k keys -> summarize (bucket k l) = Ok d -> dayOf d = k)
    by (intros k d _ Hd; now apply summarize_bucket_day in Hd).
  split; [|split].
  - rewrite (Permutation_map dayOf (Array_sort_Permutation _ Daily.date dF)).
    now rewrite (Array_map_keys _ dayOf keys dF Hday HdF).
  - intros d Hd.
    apply (Permutation_in _ (Array_sort_Permutation _ Daily.date dF)) in Hd.
    apply (Array_map_In _ _ _ HdF) in Hd as (k & Hk & Hs).
    now rewrite (Hday k d Hk Hs).
  - apply Array_sort_ascending.
Qed.

Lemma well_formed_spec (it : Item.t) :
  well_formed it = true <-> inheritedDay it = false /\ categorized it = true.
Proof.
  unfold well_formed; rewrite andb_true_iff, negb_true_iff; reflexivity.
Qed.

Lemma aggregate_total (l : list Item.t) :
  Forall (fun it => well_formed it = true) l ->
  exists out, aggregate l = Ok out.
Proof.
  intros Hwf; pose proof (aggregate_unfold l) as Hu.
  rewrite Forall_forall in Hwf.
  destruct (existsb inheritedDay l) eqn:E.
  - apply existsb_exists in E as (it & Hin & Hinh).
    apply Hwf, well_formed_spec in Hin as [Hf _]; congruence.
  - destruct Hu as (keys & Hkeys & ->).
    destruct (Array_map_total (fun k => summarize (bucket k l)) keys)
      as (dF & ->); [|simpl; eauto].
    intros k Hk.
    apply (Permutation_in _ Hkeys) in Hk; rewrite firstOccurrences_In in Hk.
    apply summarize_total.
    + intros Hb%bucket_nil; auto.
    + apply Forall_forall; intros it [Hin _]%bucket_sameDay.
      now apply Hwf, well_formed_spec in Hin.
Qed.
End AggregateFacts.

(** ** The day summaries *)

Lemma NoDup_map_injective {A B : Type} (f : A -> B) (l : list A) (x y : A) :
  NoDup (map f l) -> In x l -> In y l -> f x = f y -> x = y.
Proof.
  induction l as [|a l IH]; simpl; [easy|].
  intros Hnd [->|Hx] [->|Hy] Heq; inversion Hnd as [|? ? Hnotin Hnd']; subst; auto.
  - exfalso; apply Hnotin; rewrite Heq; now apply in_map.
  - exfalso; apply Hnotin; rewrite <- Heq; now apply in_map.
Qed.

Section SummaryFacts.
Context {host : Host}.

(** A summary of a completed run describes the bucket of its own day. *)
Lemma summary_bucket (l : list Item.t) (out : list Daily.t) (d : Daily.t) :
  aggregate l = Ok out -> In d out ->
  summarize (bucket (dayOf d) l) = Ok d
  /\ Daily.items d = bucket (dayOf d) l
  /\ In (dayOf d) (map dayKey l).
Proof.
  intros (_ & Hperm & Hsum & _)%aggregate_Ok Hd.
  split; [now apply Hsum|split].
  - now apply (summarize_bucket_day l (dayOf d) d), Hsum.
  - rewrite <- firstOccurrences_In.
    apply (Permutation_in _ Hperm); now apply in_map.
Qed.

(** In a completed run every sample of the day, whatever its condition
    entries, counts in the day's extremes. *)
Lemma summary_temperatures (l : list Item.t) (out : list Daily.t) (d : Daily.t) :
  aggregate l = Ok out -> In d out ->
  exists lo hi,
    Daily.minTemp d = Finite lo /\ Daily.maxTemp d = Finite hi
    /\ (forall it, In it (bucket (dayOf d) l) ->
          lo <= Main.temp_min (Item.main it) /\ Main.temp_max (Item.main it) <= hi)
    /\ (exists it, In it (bucket (dayOf d) l) /\ Main.temp_min (Item.main it) = lo)
    /\ (exists it, In it (bucket (dayOf d) l) /\ Main.temp_max (Item.main it) = hi).
Proof.
  intros Hagg Hd.
  destruct (summary_bucket l out d Hagg Hd) as (Hsum & _ & _).
  apply summarize_Ok in Hsum as (first & rest & Hb & _ & _ & Hmin & Hmax & _).
  set (b := bucket (dayOf d) l) in *.
  destruct (Math_min_spec (map (fun it => Main.temp_min (Item.main it)) b))
    as (lo & Hlo & Hinlo & Halllo); [rewrite Hb; discriminate|].
  destruct (Math_max_spec (map (fun it => Main.temp_max (Item.main it)) b))
    as (hi & Hhi & Hinhi & Hallhi); [rewrite Hb; discriminate|].
  exists lo, hi; rewrite Hmin, Hmax; repeat split; auto.
  - rewrite Forall_forall in Halllo; apply Halllo.
    now apply (in_map (fun it => Main.temp_min (Item.main it))).
  - rewrite Forall_forall in Hallhi; apply Hallhi.
    now apply (in_map (fun it => Main.temp_max (Item.main it))).
  - apply in_map_iff in Hinlo as (it & Heq & Hin); eauto.
  - apply in_map_iff in Hinhi as (it & Heq & Hin); eauto.
Qed.

(** In a completed run every day of the input has its summary, and only
    one; it describes the bucket of that day. *)
Lemma day_summary (l : list Item.t) (out : list Daily.t) (k : string) :
  aggregate l = Ok out -> In k (map dayKey l) ->
  exists d,
    In d out /\ dayOf d = k
    /\ summarize (bucket k l) = Ok d
    /\ Daily.items d = bucket k l
    /\ forall d', In d' out -> dayOf d' = k -> d' = d.
Proof.
  intros Hagg Hk.
  destruct (aggregate_Ok l out Hagg) as (_ & Hperm & _).
  assert (Hin : In k (map dayOf out)).
  { apply (Permutation_in _ (Permutation_sym Hperm)), firstOccurrences_In.
    exact Hk. }
  apply in_map_iff in Hin as (d & Hday & Hd).
  destruct (summary_bucket l out d Hagg Hd) as (Hsum & Hitems & _).
  rewrite Hday in Hsum, Hitems.
  exists d; repeat split; auto.
  intros d' Hd' Hday'.
  apply (NoDup_map_injective dayOf out); auto; [|congruence].
  apply (Permutation_NoDup (Permutation_sym Hperm)), firstOccurrences_NoDup.
Qed.

Lemma datable_Date (it : Item.t) :
  datable it = true ->
  Date (Item.dt it * 1000) = TimeValue (Item.dt it * 1000).
Proof.
  unfold datable, Date.
  now destruct (Z.abs (Item.dt it * 1000) <=? 8640000000000000).
Qed.

(** On datable samples the [date] of every summary is the time value of a
    valid date. *)
Lemma summary_date_valid (l : list Item.t) (out : list Daily.t) :
  Forall (fun it => datable it = true) l -> aggregate l = Ok out ->
  Forall (fun d => Date (Daily.date d) = TimeValue (Daily.date d)) out.
Proof.
  intros Hdt Hagg; apply Forall_forall; intros d Hd.
  destruct (summary_bucket l out d Hagg Hd) as (Hsum & _ & _).
  apply summarize_Ok in Hsum as (first & rest & Hb & -> & _).
  apply datable_Date.
  rewrite Forall_forall in Hdt; apply Hdt.
  apply (bucket_sameDay (dayOf d)); rewrite Hb; now left.
Qed.

(** C1.  On well-formed samples whose timestamps give valid dates the
    aggregation completes with one summary per distinct day of the input: no
    two summaries share a day, the days of the output are the days of the
    input, their number is the number of distinct days, every sample is
    listed in the single summary of its day, and the summaries come in
    ascending order of their [date], each the time value of a valid date. *)
Theorem aggregate_one_summary_per_day (l : list Item.t) :
  Forall (fun it => well_formed it = true) l ->
  Forall (fun it => datable it = true) l ->
  exists out,
    aggregate l = Ok out
    /\ NoDup (map dayOf out)
    /\ (forall k, In k (map dayOf out) <-> In k (map dayKey l))
    /\ List.length out = List.length (nodup string_dec (map dayKey l))
    /\ (forall it, In it l ->
          exists d, In d out /\ dayOf d = dayKey it /\ In it (Daily.items d)
                    /\ forall d', In d' out -> dayOf d' = dayKey it -> d' = d)
    /\ Forall (fun d => Date (Daily.date d) = TimeValue (Daily.date d)) out
    /\ StronglySorted (fun a b => Daily.date a <= Daily.date b) out.
Proof.
  intros Hwf Hdt; destruct (aggregate_total l Hwf) as (out & Hagg).
  exists out; split; [exact Hagg|].
  destruct (aggregate_Ok l out Hagg) as (_ & Hperm & Hsum & Hsorted).
  assert (Hnd : NoDup (map dayOf out)).
  { apply (Permutation_NoDup (Permutation_sym Hperm)), firstOccurrences_NoDup. }
  assert (Hdays : forall k, In k (map dayOf out) <-> In k (map dayKey l)).
  { intros k; rewrite <- (firstOccurrences_In (map dayKey l)).
    split; apply Permutation_in; [|apply Permutation_sym]; exact Hperm. }
  pose proof (summary_date_valid l out Hdt Hagg) as Hvalid.
  repeat split; auto.
  - apply Hdays.
  - apply Hdays.
  - rewrite <- (length_map dayOf).
    apply Permutation_length, NoDup_Permutation; auto.
    + apply NoDup_nodup.
    + intros k; now rewrite Hdays, nodup_In.
  - intros it Hin.
    destruct (day_summary l out (dayKey it) Hagg (in_map dayKey l it Hin))
      as (d & Hd & Hday & _ & Hitems & Huniq).
    exists d; repeat split; auto.
    rewrite Hitems; apply bucket_sameDay; auto.
Qed.

(** C2.  Every day of the input, that is every non-empty day bucket, has
    its summary in a completed run, and in it [minTemp] is the least
    [temp_min] and [maxTemp] the greatest [temp_max] of the samples of the
    bucket: they bound every contributing sample and are attained.  On
    well-formed samples the run does complete. *)
Theorem summary_min_max (l : list Item.t) :
  (Forall (fun it => well_formed it = true) l -> exists out, aggregate l = Ok out)
  /\ forall out k, aggregate l = Ok out -> In k (map dayKey l) ->
       exists d lo hi,
         In d out /\ dayOf d = k /\ Daily.items d = bucket k l
         /\ bucket k l <> []
         /\ Daily.minTemp d = Finite lo /\ Daily.maxTemp d = Finite hi
         /\ (forall it, In it (bucket k l) ->
               lo <= Main.temp_min (Item.main it)
               /\ Main.temp_max (Item.main it) <= hi)
         /\ (exists it, In it (bucket k l) /\ Main.temp_min (Item.main it) = lo)
         /\ (exists it, In it (bucket k l) /\ Main.temp_max (Item.main it) = hi).
Proof.
  split; [apply aggregate_total|].
  intros out k Hagg Hk.
  destruct (day_summary l out k Hagg Hk) as (d & Hd & Hday & _ & Hitems & _).
  destruct (summary_temperatures l out d Hagg Hd) as (lo & hi & H).
  rewrite Hday in H.
  exists d, lo, hi; repeat split; try apply H; auto.
  intros Hb%bucket_nil; auto.
Qed.
End SummaryFacts.

(** ** Representative timestamp, order of the input, malformed input *)

Section OrderFacts.
Context {host : Host}.

(** C4 (amended).  Every day of the input has its summary in a completed
    run, and when the first sample of the day in input order has a timestamp
    that gives a valid date, the [date] of that summary is the date built
    from that timestamp; it is the smallest timestamp of the day exactly
    when no later sample of the day is earlier than that first one.  On
    well-formed samples the run does complete. *)
Theorem representative_is_first_of_day (l : list Item.t) :
  (Forall (fun it => well_formed it = true) l -> exists out, aggregate l = Ok out)
  /\ forall out k, aggregate l = Ok out -> In k (map dayKey l) ->
       exists d first rest,
         In d out /\ dayOf d = k /\ Daily.items d = bucket k l
         /\ bucket k l = first :: rest
         /\ (datable first = true ->
             Date (Item.dt first * 1000) = TimeValue (Daily.date d)
             /\ Daily.date d = Item.dt first * 1000
             /\ ((forall it, In it (bucket k l) ->
                     Daily.date d <= Item.dt it * 1000)
                 <-> Forall (fun it => Item.dt first <= Item.dt it) rest)).
Proof.
  split; [apply aggregate_total|].
  intros out k Hagg Hk.
  destruct (day_summary l out k Hagg Hk) as (d & Hd & Hday & Hsum & Hitems & _).
  apply summarize_Ok in Hsum as (first & rest & Hb & Hdate & _).
  exists d, first, rest; rewrite Hb in *; rewrite Hdate.
  repeat split; auto.
  - now apply datable_Date.
  - intros Hmin; apply Forall_forall; intros it Hin.
    specialize (Hmin it (or_intror Hin)); lia.
  - intros Hrest it [<-|Hin]; [lia|].
    rewrite Forall_forall in Hrest; specialize (Hrest it Hin); lia.
Qed.

(** C5 (amended).  On samples whose timestamps give valid dates,
    reordering the input leaves the result unchanged as long as the samples
    of each day keep their relative order. *)
Theorem aggregate_same_order_within_days (l l' : list Item.t) :
  Forall (fun it => datable it = true) l ->
  Permutation l l' ->
  (forall k, bucket k l' = bucket k l) ->
  aggregate l' = aggregate l.
Proof.
  intros _ HP Hb.
  pose proof (aggregate_unfold l) as Hu; pose proof (aggregate_unfold l') as Hu'.
  rewrite <- (existsb_Permutation inheritedDay l l' HP) in Hu'.
  destruct (existsb inheritedDay l); [congruence|].
  destruct Hu as (keys & Hkeys & ->), Hu' as (keys' & Hkeys' & ->).
  rewrite (Array_map_ext_in (fun k => summarize (bucket k l'))
             (fun k => summarize (bucket k l)) keys')
    by (intros k _; now rewrite Hb).
  assert (HPk : Permutation keys keys').
  { rewrite Hkeys, Hkeys'.
    apply NoDup_Permutation; auto using firstOccurrences_NoDup.
    intros k; rewrite !firstOccurrences_In.
    split; apply Permutation_in; [|apply Permutation_sym];
      now apply Permutation_map. }
  assert (Hday : forall keys k d,
             In k keys -> summarize (bucket k l) = Ok d -> dayOf d = k)
    by (intros ? k d _ Hd; now apply summarize_bucket_day in Hd).
  destruct (Array_map (fun k => summarize (bucket k l)) keys) as [dF|e] eqn:E.
  - destruct (Array_map_Permutation _ keys keys' dF HPk E) as (dF' & E' & HPd).
    rewrite E'; simpl; f_equal.
    apply (ascending_unique _ Daily.date); auto using Array_sort_ascending.
    + now rewrite !Array_sort_Permutation.
    + apply (Permutation_NoDup
               (Permutation_map _ (Permutation_sym (Array_sort_Permutation _ _ dF')))).
      apply (NoDup_map_inv toLocaleDateString); rewrite map_map.
      change (NoDup (map dayOf dF')).
      rewrite (Array_map_keys _ dayOf keys' dF' (Hday keys') E').
      apply (Permutation_NoDup (Permutation_sym Hkeys')), firstOccurrences_NoDup.
  - destruct (Array_map (fun k => summarize (bucket k l)) keys') as [dF'|e'] eqn:E'.
    + destruct (Array_map_Permutation _ keys' keys dF' (Permutation_sym HPk) E')
        as (dF & HdF & _); congruence.
    + simpl; now rewrite (error_unique e), (error_unique e').
Qed.

(** C7.  The empty array is aggregated to the empty array, without error,
    and the component renders it as an empty list. *)
Theorem aggregate_empty :
  aggregate [] = Ok []
  /\ forall loading units,
      exists tempSymbol,
        ForecastScreen (Props.mk (Some (ForecastData.mk (VArray []))) loading units)
        = Ok (FlatList tempSymbol []).
Proof.
  split; [reflexivity|].
  intros loading units; unfold ForecastScreen; simpl.
  rewrite andb_false_r; eauto.
Qed.

(** C9 (amended).  When [forecastData] or its [list] is absent (falsy), the
    component raises nothing, runs no aggregation and returns one of its two
    placeholders, which display no summary: the loading indicator while
    [loading] holds and [forecastData] is absent, the "unavailable" message
    otherwise. *)
Theorem absent_forecast_is_placeholder (props : Props.t) :
  available props = false ->
  exists v,
    ForecastScreen props = Ok v
    /\ displayed v = []
    /\ v = (if Props.loading props && negb (truthyData (Props.forecastData props))
            then LoadingView else UnavailableView).
Proof.
  unfold available, ForecastScreen; intros H.
  destruct (Props.forecastData props) as [data|]; simpl.
  - rewrite andb_false_r, H; simpl; eauto.
  - rewrite andb_true_r; destruct (Props.loading props); eauto.
Qed.

(** C10.  When every sample carries at least one condition entry, the
    [weather] of every summary of a completed run is the first condition
    entry of a sample of the input that belongs to the day of that summary
    and is listed in it; and the run does complete on well-formed samples. *)
Theorem dominant_condition_from_own_day (l : list Item.t) :
  Forall (fun it => Item.weather it <> []) l ->
  (Forall (fun it => well_formed it = true) l -> exists out, aggregate l = Ok out)
  /\ forall out d, aggregate l = Ok out -> In d out ->
       exists it, In it l /\ dayKey it = dayOf d /\ In it (Daily.items d)
                  /\ firstCondition it = Some (Daily.weather d).
Proof.
  intros _; split; [apply aggregate_total|].
  intros out d Hagg Hd.
  destruct (summary_bucket l out d Hagg Hd) as (Hsum & Hitems & _).
  apply summarize_Ok in Hsum as (_ & _ & _ & _ & _ & _ & _ & _ & it & Hin & Hf).
  exists it; rewrite Hitems.
  pose proof Hin as [Hl Hk]%bucket_sameDay; auto.
Qed.
End OrderFacts.

(** ** The dominant condition (lines 64-83) on ordinary labels *)

Lemma labelled_spec (it : Item.t) :
  labelled it = true ->
  exists w ws c,
    Item.weather it = w :: ws /\ Weather.main w = Some c
    /\ isArrayIndex c = false /\ Object_prototype_has c = false.
Proof.
  unfold labelled, plainLabel.
  destruct (Item.weather it) as [|w ws]; [discriminate|].
  destruct (Weather.main w) as [c|] eqn:Hc; [|discriminate].
  rewrite andb_true_iff, !negb_true_iff; intros [Hi Hp].
  exists w, ws, c; auto.
Qed.

Lemma not_inherited_not_proto (c : string) :
  Object_prototype_has c = false -> String.eqb c "__proto__" = false.
Proof.
  intros H; apply String.eqb_neq; intros ->; discriminate.
Qed.

Lemma occurrences_snoc (k : string) (p : list Item.t) (it : Item.t) :
  occurrences k (p ++ [it])
  = occurrences k p + (if hasCondition k it then 1 else 0).
Proof.
  unfold occurrences; rewrite filter_app, length_app, Nat2Z.inj_add; simpl.
  now destruct (hasCondition k it).
Qed.

Lemma occurrences_nonneg (k : string) (p : list Item.t) : 0 <= occurrences k p.
Proof. unfold occurrences; lia. Qed.

Lemma countedKeys_snoc (p : list Item.t) (it : Item.t) (w : Weather.t) :
  firstCondition it = Some w ->
  countedKeys (p ++ [it]) = countedKeys p ++ [conditionKey w].
Proof.
  intros Hw; unfold countedKeys; rewrite flat_map_app; simpl.
  now rewrite Hw.
Qed.

Lemma countWeather_tallied (p : list Item.t) (wc : object tally) (it : Item.t) :
  tallied p wc -> labelled it = true ->
  exists wc', countWeather wc it = Ok wc' /\ tallied (p ++ [it]) wc'.
Proof.
  intros [Hkeys Hown] (w & ws & c & Hw & Hc & _ & Hproto)%labelled_spec.
  assert (Hfirst : firstCondition it = Some w)
    by (unfold firstCondition; now rewrite Hw).
  assert (Hkey : conditionKey w = c) by (unfold conditionKey; now rewrite Hc).
  assert (Hhas : forall k, hasCondition k it = String.eqb c k)
    by (intros k; unfold hasCondition; now rewrite Hw, Hc).
  unfold countWeather; rewrite Hw.
  fold (conditionKey w); rewrite Hkey.
  unfold assignCount; rewrite (not_inherited_not_proto c Hproto).
  eexists; split; [reflexivity|split].
  - rewrite keys_assign, Hkeys, (countedKeys_snoc p it w Hfirst), Hkey.
    now rewrite firstOccurrences_snoc.
  - intros k; rewrite occurrences_snoc, Hhas.
    pose proof (occurrences_nonneg k p) as Hnn.
    destruct (String.eqb_spec c k) as [<-|Hne].
    + rewrite own_assign_eq; unfold lookup; rewrite Hown, Hproto.
      rewrite (proj2 (Z.eqb_neq (occurrences c p + 1) 0)) by lia.
      now destruct (Z.eqb_spec (occurrences c p) 0) as [->|Hpos].
    + rewrite own_assign_neq, Hown, Z.add_0_r by exact Hne; reflexivity.
Qed.

Lemma forEach_countWeather_tallied (items p : list Item.t) (wc : object tally) :
  tallied p wc -> Forall (fun it => labelled it = true) items ->
  exists wc', forEach countWeather items wc = Ok wc' /\ tallied (p ++ items) wc'.
Proof.
  intros Hwc Hall; revert p wc Hwc.
  induction Hall as [|it items Hit _ IH]; intros p wc Hwc; simpl.
  - exists wc; now rewrite app_nil_r.
  - destruct (countWeather_tallied p wc it Hwc Hit) as (wc1 & -> & Hwc1); simpl.
    destruct (IH _ _ Hwc1) as (wc' & Hwc' & Ht).
    exists wc'; split; [exact Hwc'|].
    now rewrite <- app_assoc in Ht.
Qed.

Lemma tallied_nil : tallied [] [].
Proof. split; [reflexivity | intros k; reflexivity]. Qed.

Lemma countedKeys_labelled (items : list Item.t) (k : string) :
  Forall (fun it => labelled it = true) items ->
  In k (countedKeys items) <->
  exists it, In it items /\ hasCondition k it = true.
Proof.
  intros Hall; unfold countedKeys; rewrite in_flat_map.
  rewrite Forall_forall in Hall.
  split; intros (it & Hin & H); exists it; (split; [exact Hin|]);
    destruct (labelled_spec it (Hall it Hin)) as (w & ws & c & Hw & Hc & _);
    unfold firstCondition, hasCondition, conditionKey in *;
    rewrite Hw in *; simpl in *; rewrite Hc in *; simpl in *.
  - destruct H as [<-|[]]; apply String.eqb_refl.
  - left; now apply String.eqb_eq.
Qed.

Lemma countedKeys_plain (items : list Item.t) :
  Forall (fun it => labelled it = true) items ->
  Forall (fun k => isArrayIndex k = false) (countedKeys items).
Proof.
  intros Hall; apply Forall_forall; intros k Hk.
  unfold countedKeys in Hk; apply in_flat_map in Hk as (it & Hin & Hk).
  rewrite Forall_forall in Hall.
  destruct (labelled_spec it (Hall it Hin)) as (w & ws & c & Hw & Hc & Hidx & _).
  unfold firstCondition, conditionKey in Hk; rewrite Hw in Hk; simpl in Hk.
  rewrite Hc in Hk; destruct Hk as [<-|[]]; exact Hidx.
Qed.

Lemma occurrences_positive (k : string) (items : list Item.t) (it : Item.t) :
  In it items -> hasCondition k it = true -> 1 <= occurrences k items.
Proof.
  intros Hin Hc; unfold occurrences.
  assert (H : In it (filter (hasCondition k) items)) by (apply filter_In; auto).
  destruct (filter (hasCondition k) items); [easy | simpl; lia].
Qed.

(** One round of the selection loop on a counted key. *)
Lemma pickWeather_counted (items : list Item.t) (wc : object tally) (k : string) :
  tallied items wc -> Forall (fun it => labelled it = true) items ->
  In k (countedKeys items) ->
  exists x w,
    1 <= occurrences k items
    /\ Array_find (hasCondition k) items = Some x
    /\ firstCondition x = Some w
    /\ forall st, pickWeather items wc st k
                  = Ok (if snd st <? occurrences k items
                        then (w, occurrences k items) else st).
Proof.
  intros [_ Hown] Hall Hk.
  apply (countedKeys_labelled items k Hall) in Hk as (it & Hin & Hc).
  pose proof (occurrences_positive k items it Hin Hc) as Hpos.
  unfold Array_find.
  destruct (find (hasCondition k) items) as [x|] eqn:Hf;
    [|now rewrite (find_none _ _ Hf it Hin) in Hc].
  pose proof (find_some _ _ Hf) as [_ Hx].
  destruct (hasCondition_first k x Hx) as (w & Hw & _).
  exists x, w; repeat split; auto.
  intros st; unfold pickWeather, Array_find, greater.
  rewrite Hown, (proj2 (Z.eqb_neq _ 0)), Hf by lia.
  unfold firstCondition in Hw.
  destruct (Item.weather x); [discriminate|].
  inversion Hw; subst; now destruct (snd st <? _).
Qed.

(** The selection loop, on ordinary labels, holds after each round the first
    key with the highest count among those visited, together with the first
    condition entry of the first sample carrying it. *)
Lemma forEach_pickWeather_firstMaximum (items : list Item.t) (wc : object tally) :
  tallied items wc -> Forall (fun it => labelled it = true) items ->
  forall ks2 ks1 st,
    (forall k, In k ks2 -> In k (countedKeys items)) ->
    (ks1 = [] /\ snd st = 0
     \/ exists c x,
         firstMaximum (fun k => occurrences k items) ks1 c
         /\ snd st = occurrences c items
         /\ Array_find (hasCondition c) items = Some x
         /\ firstCondition x = Some (fst st)) ->
    exists st',
      forEach (pickWeather items wc) ks2 st = Ok st'
      /\ (ks1 ++ ks2 = [] /\ snd st' = 0
          \/ exists c x,
              firstMaximum (fun k => occurrences k items) (ks1 ++ ks2) c
              /\ snd st' = occurrences c items
              /\ Array_find (hasCondition c) items = Some x
              /\ firstCondition x = Some (fst st')).
Proof.
  intros Hwc Hall; induction ks2 as [|k ks2 IH]; intros ks1 st Hks Hst; simpl.
  - exists st; now rewrite app_nil_r.
  - destruct (pickWeather_counted items wc k Hwc Hall) as (x & w & Hpos & Hf & Hw & Hstep);
      [apply Hks; now left|].
    rewrite Hstep; simpl.
    replace (ks1 ++ k :: ks2) with ((ks1 ++ [k]) ++ ks2)
      by now rewrite <- app_assoc.
    apply IH; [intros; apply Hks; now right|right].
    destruct (Z.ltb_spec (snd st) (occurrences k items)) as [Hlt|Hge].
    + exists k, x; simpl; repeat split; auto.
      exists ks1, []; repeat split; auto.
      destruct Hst as [[-> _]|(c & y & (a & b & -> & Ha & Hb) & Hm & _)];
        [constructor|].
      rewrite Hm in Hlt.
      apply Forall_app; split; [|constructor].
      * eapply Forall_impl; [|exact Ha]; simpl; intros; lia.
      * lia.
      * eapply Forall_impl; [|exact Hb]; simpl; intros; lia.
    + destruct Hst as [[_ Hm]|(c & y & (a & b & -> & Ha & Hb) & Hm & Hy & Hfst)];
        [lia|].
      exists c, y; repeat split; auto.
      exists a, (b ++ [k]); rewrite <- app_assoc; repeat split; auto.
      apply Forall_app; split; [exact Hb|].
      constructor; [lia | constructor].
Qed.

(** The reduction of a day whose samples all carry ordinary labels: the
    winning entry is the first entry of the first sample of its category;
    no category occurs more often; the categories met before that sample
    occur strictly less often. *)
Lemma summarize_labelled (items : list Item.t) :
  items <> [] -> Forall (fun it => labelled it = true) items ->
  exists d c pre x post,
    summarize items = Ok d
    /\ items = pre ++ x :: post
    /\ firstCondition x = Some (Daily.weather d)
    /\ Weather.main (Daily.weather d) = Some c
    /\ Forall (fun y => hasCondition c y = false) pre
    /\ (forall c', occurrences c' items <= occurrences c items)
    /\ Forall (fun y => forall c', hasCondition c' y = true ->
                                   occurrences c' items < occurrences c items) pre.
Proof.
  intros Hne Hall; unfold summarize.
  destruct (forEach_countWeather_tallied items [] [] tallied_nil Hall)
    as (wc & -> & Hwc); simpl in *.
  destruct items as [|first rest]; [congruence|].
  set (items := first :: rest) in *.
  inversion Hall as [|? ? Hfirst _]; subst.
  destruct (labelled_spec first Hfirst) as (w0 & ws0 & c0 & Hw0 & _).
  rewrite Hw0.
  assert (Hkeys : Object_keys wc = firstOccurrences (countedKeys items)).
  { rewrite Object_keys_plain; [now destruct Hwc|].
    destruct Hwc as [-> _]; apply Forall_forall; intros k Hk.
    rewrite firstOccurrences_In in Hk.
    pose proof (countedKeys_plain items Hall) as Hp.
    rewrite Forall_forall in Hp; auto. }
  destruct (forEach_pickWeather_firstMaximum items wc Hwc Hall
              (Object_keys wc) [] (w0, 0)) as (st & -> & Hst).
  { intros k; rewrite Hkeys; apply firstOccurrences_In. }
  { now left. }
  cbn [app fst snd] in Hst.
  destruct Hst as [[Hnil _]|(c & x & Hmax & _ & Hf & Hw)].
  { exfalso; rewrite Hkeys in Hnil.
    destruct (categorized_hasCondition first) as (w & c & _ & _ & _ & Hh).
    { unfold categorized; rewrite Hw0.
      destruct (labelled_spec first Hfirst) as (w & ws & c & Hw & Hc & _).
      rewrite Hw0 in Hw; inversion Hw; subst; now rewrite Hc. }
    assert (Hin : In c (firstOccurrences (countedKeys items))).
    { apply firstOccurrences_In, (countedKeys_labelled items c Hall).
      exists first; split; [now left | exact Hh]. }
    now rewrite Hnil in Hin. }
  eexists _, c; cbn [bind Daily.weather].
  apply find_first in Hf as (pre & post & Hsplit & Hx & Hpre).
  exists pre, x, post; split; [reflexivity|].
  destruct (hasCondition_first c x Hx) as (w & Hw' & Hc).
  assert (w = fst st) as -> by congruence.
  destruct Hmax as (a & b & Hab & Ha & Hb).
  rewrite Forall_forall in Ha, Hb.
  repeat split; auto.
  - intros c'.
    destruct (in_dec string_dec c' (Object_keys wc)) as [Hin|Hout].
    + rewrite Hab in Hin; apply in_app_or in Hin as [Hin|[<-|Hin]];
        [specialize (Ha _ Hin); simpl in Ha; lia | lia | now apply Hb].
    + rewrite Hkeys in Hout; destruct Hwc as [Hk Hown].
      rewrite <- Hk in Hout; apply own_keys in Hout.
      rewrite Hown in Hout.
      pose proof (occurrences_nonneg c items).
      destruct (Z.eqb_spec (occurrences c' items) 0); [lia | discriminate].
  - assert (Hpl : Forall (fun it => labelled it = true) pre).
    { apply Forall_forall; intros y Hy.
      rewrite Forall_forall in Hall; apply Hall; rewrite Hsplit.
      apply in_or_app; now left. }
    assert (Hcx : countedKeys items = countedKeys pre ++ c :: countedKeys post).
    { rewrite Hsplit; unfold countedKeys; rewrite flat_map_app; simpl.
      rewrite Hw'; unfold conditionKey; now rewrite Hc. }
    assert (Hnew : ~ In c (countedKeys pre)).
    { intros (y & Hy & Hcy)%(countedKeys_labelled pre c Hpl).
      rewrite Forall_forall in Hpre; rewrite (Hpre y Hy) in Hcy; discriminate. }
    destruct (firstOccurrences_split (countedKeys pre) (countedKeys post) c Hnew)
      as (ext & Hext).
    rewrite <- Hcx, <- Hkeys, Hab in Hext.
    apply NoDup_split_unique in Hext;
      [|rewrite <- Hab, Hkeys; apply firstOccurrences_NoDup].
    apply Forall_forall; intros y Hy c' Hc'.
    apply Ha; rewrite Hext, firstOccurrences_In.
    apply (countedKeys_labelled pre c' Hpl); eauto.
Qed.

Section DominantCondition.
Context {host : Host}.

(** C3 (amended).  Every day of the input has its summary in a completed
    run and, when the samples of the day all carry an ordinary label, the
    [weather] of that summary is the first condition entry of the first
    sample, in input order, of the winning category: no category of the day
    occurs more often than the winner, and every category met in the bucket
    before the winner's first sample occurs strictly less often; among the
    categories that tie for the highest count the winner is thus the one
    that appears first in input order.  On well-formed samples the run does
    complete. *)
Theorem dominant_condition_first_in_input_order (l : list Item.t) :
  (Forall (fun it => well_formed it = true) l -> exists out, aggregate l = Ok out)
  /\ forall out k, aggregate l = Ok out -> In k (map dayKey l) ->
       Forall (fun it => labelled it = true) (bucket k l) ->
       exists d c pre x post,
         In d out /\ dayOf d = k /\ Daily.items d = bucket k l
         /\ bucket k l = pre ++ x :: post
         /\ firstCondition x = Some (Daily.weather d)
         /\ Weather.main (Daily.weather d) = Some c
         /\ Forall (fun y => hasCondition c y = false) pre
         /\ (forall c', occurrences c' (bucket k l) <= occurrences c (bucket k l))
         /\ Forall (fun y => forall c', hasCondition c' y = true ->
                      occurrences c' (bucket k l) < occurrences c (bucket k l)) pre.
Proof.
  split; [apply aggregate_total|].
  intros out k Hagg Hk Hall.
  destruct (day_summary l out k Hagg Hk) as (d & Hd & Hday & Hsum & Hitems & _).
  destruct (summarize_labelled (bucket k l))
    as (d' & c & pre & x & post & Hsum' & H).
  - intros Hb%bucket_nil; auto.
  - exact Hall.
  - assert (d' = d) as -> by congruence.
    exists d, c, pre, x, post; repeat split; auto; apply H.
Qed.
End DominantCondition.

(** ** A day with one sample that lacks its category *)






Section MalformedSample.
Context {host : Host}.


End MalformedSample.

(** ** The heap embedding refines [aggregate] and leaves the heap it
    found untouched *)

Lemma read_old (h ext : heap) (a : address) :
  (a < List.length h)%nat -> read (h ++ ext) a = read h a.
Proof. intros Ha; unfold read; now rewrite app_nth1. Qed.

Lemma read_new (h : heap) : read (h ++ [[]]) (List.length h) = [].
Proof. unfold read; now rewrite nth_middle. Qed.

Lemma length_store (h : heap) (a : address) (v : list Item.t) :
  List.length (store h a v) = List.length h.
Proof.
  revert a; induction h as [|x h IH]; intros a; simpl; [reflexivity|].
  destruct a; simpl; auto.
Qed.

Lemma store_new (h ext : heap) (a : address) (v : list Item.t) :
  (List.length h <= a)%nat ->
  store (h ++ ext) a v = h ++ store ext (a - List.length h)%nat v.
Proof.
  revert a; induction h as [|x h IH]; intros a Ha; simpl in *.
  - now rewrite Nat.sub_0_r.
  - destruct a as [|a]; [lia|].
    simpl; rewrite IH by lia; reflexivity.
Qed.

Lemma read_store_eq (h : heap) (a : address) (v : list Item.t) :
  (a < List.length h)%nat -> read (store h a v) a = v.
Proof.
  unfold read; revert a; induction h as [|x h IH]; intros a Ha; simpl in *; [lia|].
  destruct a; simpl; [reflexivity | apply IH; lia].
Qed.

Lemma read_store_neq (h : heap) (a b : address) (v : list Item.t) :
  a <> b -> read (store h a v) b = read h b.
Proof.
  unfold read; revert a b; induction h as [|x h IH]; intros a b Hne; simpl.
  - reflexivity.
  - destruct a, b; simpl; try congruence; apply IH; congruence.
Qed.

Lemma own_arraysOf (h : heap) (g : object address) (k : string) :
  own (arraysOf h g) k = option_map (read h) (own g k).
Proof.
  induction g as [|[k' a] g IH]; simpl; [reflexivity|].
  now destruct (String.eqb k k').
Qed.

Lemma lookup_arraysOf (h : heap) (g : object address) (k : string) :
  lookup (arraysOf h g) k
  = match lookup g k with
    | Own a => Own (read h a)
    | Inherited => Inherited
    | Undefined => Undefined
    end.
Proof.
  unfold lookup; rewrite own_arraysOf.
  destruct (own g k); simpl; [reflexivity|].
  now destruct (Object_prototype_has k).
Qed.

Lemma keys_arraysOf (h : heap) (g : object address) :
  map fst (arraysOf h g) = map fst g.
Proof. unfold arraysOf; rewrite map_map; reflexivity. Qed.

Lemma arraysOf_assign (h : heap) (g : object address) (k : string) (a : address) :
  arraysOf h (assign g k a) = assign (arraysOf h g) k (read h a).
Proof.
  induction g as [|[k' a'] g IH]; simpl; [reflexivity|].
  destruct (String.eqb k k'); simpl; [reflexivity | now rewrite IH].
Qed.

Lemma arraysOf_ext (h h' : heap) (g : object address) :
  Forall (fun a => read h' a = read h a) (map snd g) ->
  arraysOf h' g = arraysOf h g.
Proof.
  induction g as [|[k a] g IH]; simpl; intros H; [reflexivity|].
  inversion H; subst; simpl in *; f_equal; [congruence | auto].
Qed.

Lemma own_value (g : object address) (k : string) (a : address) :
  own g k = Some a -> In a (map snd g).
Proof.
  induction g as [|[k' a'] g IH]; simpl; [discriminate|].
  destruct (String.eqb k k'); [intros [= ->]; now left | auto].
Qed.

Lemma arraysOf_store (h : heap) (g : object address) (k : string)
    (a : address) (v : list Item.t) :
  own g k = Some a -> NoDup (map snd g) -> (a < List.length h)%nat ->
  arraysOf (store h a v) g = assign (arraysOf h g) k v.
Proof.
  intros Hown Hnd Ha; induction g as [|[k' a'] g IH]; simpl in *; [discriminate|].
  inversion Hnd as [|? ? Hnotin Hnd']; subst.
  destruct (String.eqb k k') eqn:E.
  - inversion Hown; subst a'.
    rewrite read_store_eq by exact Ha; f_equal.
    apply arraysOf_ext, Forall_forall; intros b Hb.
    apply read_store_neq; congruence.
  - rewrite read_store_neq, IH; auto.
    intros ->; apply Hnotin; eapply own_value; eauto.
Qed.

Lemma assign_new {V : Type} (g : object V) (k : string) (v : V) :
  own g k = None -> assign g k v = g ++ [(k, v)].
Proof.
  induction g as [|[k' v'] g IH]; simpl; [reflexivity|].
  destruct (String.eqb k k'); [discriminate | intros H; now rewrite IH].
Qed.

Lemma Array_sort_map {A B : Type} (f : A -> B) (cmp : A -> A -> Z)
    (cmp' : B -> B -> Z) (l : list A) :
  (forall a b, cmp' (f a) (f b) = cmp a b) ->
  map f (Array_sort cmp l) = Array_sort cmp' (map f l).
Proof.
  intros Hcmp; induction l as [|x l IH]; simpl; [reflexivity|].
  rewrite <- IH; generalize (Array_sort cmp l) as s; clear IH.
  induction s as [|y s IH]; simpl; [reflexivity|].
  rewrite Hcmp; destruct (cmp x y <=? 0); simpl; [reflexivity | now rewrite IH].
Qed.

Section HeapFacts.
Context {host : Host}.

Lemma allocatedSince_store (h0 h : heap) (g : object address)
    (a : address) (v : list Item.t) :
  allocatedSince h0 h g -> (List.length h0 <= a)%nat ->
  allocatedSince h0 (store h a v) g.
Proof.
  intros ((ext & ->) & Hrange & Hnd) Ha; repeat split; auto.
  - rewrite store_new by exact Ha; eauto.
  - now rewrite length_store.
Qed.

(** One round of the grouping loop on the heap does what [groupItem] does
    on values, and only allocates or updates arrays newer than [h0]. *)
Lemma groupItemAt_simulates (h0 h : heap) (g : object address) (item : Item.t) :
  allocatedSince h0 h g ->
  match groupItem (arraysOf h g) item with
  | Ok G' =>
      exists g' h',
        groupItemAt g item h = (Ok g', h')
        /\ arraysOf h' g' = G' /\ allocatedSince h0 h' g'
  | Throw e => groupItemAt g item h = (Throw e, h)
  end.
Proof.
  intros Hinv; pose proof Hinv as ((ext & Hext) & Hrange & Hnd).
  unfold groupItem, groupItemAt, bindM; cbv zeta.
  destruct (own g (dayKey item)) as [a|] eqn:Hown.
  - assert (Hl : lookup g (dayKey item) = Own a)
      by (unfold lookup; now rewrite Hown).
    assert (HL : lookup (arraysOf h g) (dayKey item) = Own (read h a))
      by (now rewrite lookup_arraysOf, Hl).
    rewrite HL, Hl; cbv iota; rewrite HL; unfold ret; rewrite Hl; simpl.
    assert (Ha : (List.length h0 <= a < List.length h)%nat).
    { rewrite Forall_forall in Hrange; eapply Hrange, own_value; eauto. }
    exists g, (store h a (read h a ++ [item])); split; [reflexivity|split].
    + apply arraysOf_store; auto; lia.
    + apply allocatedSince_store; auto; lia.
  - destruct (Object_prototype_has (dayKey item)) eqn:Hp.
    + assert (Hl : lookup g (dayKey item) = Inherited)
        by (unfold lookup; now rewrite Hown, Hp).
      assert (HL : lookup (arraysOf h g) (dayKey item) = Inherited)
        by (now rewrite lookup_arraysOf, Hl).
      rewrite HL, Hl; cbv iota; rewrite HL; unfold ret; rewrite Hl; reflexivity.
    + assert (Hl : lookup g (dayKey item) = Undefined)
        by (unfold lookup; now rewrite Hown, Hp).
      assert (HL : lookup (arraysOf h g) (dayKey item) = Undefined)
        by (now rewrite lookup_arraysOf, Hl).
      rewrite HL, Hl; cbv iota.
      unfold newArray, ret, push, bindM; simpl.
      unfold lookup; rewrite !own_assign_eq.
      set (a := List.length h); set (h1 := h ++ [[]]).
      assert (Hold : Forall (fun b => read h1 b = read h b) (map snd g)).
      { eapply Forall_impl; [|exact Hrange]; simpl; intros b Hb.
        apply read_old; lia. }
      assert (Hfresh : ~ In a (map snd g)).
      { intros Hin; rewrite Forall_forall in Hrange.
        specialize (Hrange a Hin); unfold a in Hrange; lia. }
      assert (Hnd1 : NoDup (map snd (assign g (dayKey item) a))).
      { rewrite assign_new, map_app by exact Hown; simpl.
        apply NoDup_app; auto.
        - repeat constructor; intros [].
        - intros b Hb [<-|[]]; auto. }
      assert (Hlen : List.length h1 = Datatypes.S a)
        by (unfold h1, a; rewrite length_app; simpl; lia).
      exists (assign g (dayKey item) a), (store h1 a (read h1 a ++ [item])).
      split; [reflexivity|split; [|split; [|split]]].
      * rewrite (arraysOf_store h1 _ (dayKey item) a); auto using own_assign_eq; [|lia].
        rewrite arraysOf_assign, (arraysOf_ext h h1 g Hold).
        unfold h1, a; now rewrite read_new.
      * subst h; unfold h1; rewrite <- app_assoc, store_new; eauto.
        unfold a; rewrite length_app; lia.
      * rewrite length_store, Hlen.
        rewrite assign_new, map_app by exact Hown; simpl.
        apply Forall_app; split.
        -- eapply Forall_impl; [|exact Hrange]; simpl; intros; unfold a; lia.
        -- repeat constructor; subst h; unfold a; rewrite length_app; lia.
      * exact Hnd1.
Qed.

(** The grouping loop on the heap, from index [length pre] on, does what
    [forEach groupItem] does on the remaining elements. *)
Lemma forEachFrom_simulates (h0 : heap) (list : address) :
  (list < List.length h0)%nat ->
  forall suffix pre g h,
    read h0 list = pre ++ suffix -> allocatedSince h0 h g ->
    match forEach groupItem suffix (arraysOf h g) with
    | Ok G' =>
        exists g' h',
          forEachFrom list groupItemAt (List.length pre) (List.length suffix) g h
          = (Ok g', h')
          /\ arraysOf h' g' = G' /\ allocatedSince h0 h' g'
    | Throw e =>
        exists ext,
          forEachFrom list groupItemAt (List.length pre) (List.length suffix) g h
          = (Throw e, h0 ++ ext)
    end.
Proof.
  intros Hlist; induction suffix as [|x suffix IH]; intros pre g h Hl Hinv.
  - simpl; exists g, h; auto.
  - pose proof Hinv as ((ext & Hext) & _).
    assert (Hcomp :
              forEachFrom list groupItemAt (List.length pre)
                (List.length (x :: suffix)) g h
              = match groupItemAt g x h with
                | (Ok s', h') =>
                    forEachFrom list groupItemAt (Datatypes.S (List.length pre))
                      (List.length suffix) s' h'
                | (Throw e, h') => (Throw e, h')
                end).
    { simpl; unfold bindM at 1, elementAt.
      rewrite Hext, read_old, Hl, nth_error_app2, Nat.sub_diag by auto.
      reflexivity. }
    rewrite Hcomp; clear Hcomp; simpl forEach.
    pose proof (groupItemAt_simulates h0 h g x Hinv) as Hstep.
    destruct (groupItem (arraysOf h g) x) as [G1|e]; simpl.
    + destruct Hstep as (g1 & h1 & -> & <- & Hinv1).
      specialize (IH (pre ++ [x]) g1 h1).
      rewrite length_app, Nat.add_1_r, <- app_assoc in IH.
      now apply IH.
    + rewrite Hstep, Hext; eauto.
Qed.

Lemma Array_mapM_cons {A B : Type} (f : A -> M B) (x : A) (l : list A) (h : heap) :
  Array_mapM f (x :: l) h
  = match f x h with
    | (Ok y, h') =>
        match Array_mapM f l h' with
        | (Ok ys, h'') => (Ok (y :: ys), h'')
        | (Throw e, h'') => (Throw e, h'')
        end
    | (Throw e, h') => (Throw e, h')
    end.
Proof.
  simpl; unfold bindM; destruct (f x h) as [[y|e] h']; [|reflexivity].
  now destruct (Array_mapM f l h') as [[ys|e] h''].
Qed.

(** Reducing one bucket through its address gives the summary of the array
    found there, and changes nothing. *)
Lemma summarizeAt_refines (h : heap) (a : address) :
  match summarize (read h a) with
  | Ok d => exists r, summarizeAt a h = (Ok r, h) /\ resolve h r = d
  | Throw e => summarizeAt a h = (Throw e, h)
  end.
Proof.
  unfold summarizeAt, bindM, contents.
  destruct (summarize (read h a)) as [d|e] eqn:Hd; [|reflexivity].
  eexists; split; [reflexivity|].
  apply summarize_Ok in Hd as (_ & _ & _ & _ & Hitems & _).
  unfold resolve; simpl; rewrite <- Hitems; now destruct d.
Qed.

Lemma Array_mapM_summarizeAt (h : heap) (g : object address) (keys : list string) :
  match Array_map (fun date => match lookup (arraysOf h g) date with
                               | Own items => summarize items
                               | _ => Throw TypeError
                               end) keys with
  | Ok ds =>
      exists refs,
        Array_mapM (fun date => match lookup g date with
                                | Own a => summarizeAt a
                                | _ => throw TypeError
                                end) keys h = (Ok refs, h)
        /\ map (resolve h) refs = ds
  | Throw e =>
      Array_mapM (fun date => match lookup g date with
                              | Own a => summarizeAt a
                              | _ => throw TypeError
                              end) keys h = (Throw e, h)
  end.
Proof.
  induction keys as [|k keys IH]; [exists []; auto|].
  rewrite Array_mapM_cons; simpl Array_map; rewrite lookup_arraysOf.
  destruct (lookup g k) as [a| |]; simpl; try reflexivity.
  pose proof (summarizeAt_refines h a) as Hk.
  destruct (summarize (read h a)) as [d|e]; simpl; [|now rewrite Hk].
  destruct Hk as (r & -> & <-).
  destruct (Array_map _ keys) as [ds|e]; simpl.
  - destruct IH as (refs & -> & <-); simpl; eauto.
  - now rewrite IH.
Qed.

Lemma aggregateAt_unfold (h : heap) (list : address) :
  aggregateAt list h
  = match forEachFrom list groupItemAt 0 (List.length (read h list)) [] h with
    | (Ok g, h1) =>
        match Array_mapM (fun date => match lookup g date with
                                      | Own a => summarizeAt a
                                      | _ => throw TypeError
                                      end) (Object_keys g) h1 with
        | (Ok dailyForecasts, h2) =>
            (Ok (Array_sort (fun a b => DailyRef.date a - DailyRef.date b)
                   dailyForecasts), h2)
        | (Throw e, h2) => (Throw e, h2)
        end
    | (Throw e, h1) => (Throw e, h1)
    end.
Proof.
  unfold aggregateAt, bindM, lengthOf, ret.
  destruct (forEachFrom _ _ _ _ _ h) as [[g|e] h1]; [|reflexivity].
  now destruct (Array_mapM _ _ h1) as [[dF|e] h2].
Qed.

(** A call on the heap returns what [aggregate] returns on the elements of
    the array, and leaves a heap that extends the one it found. *)
Lemma aggregateAt_refines (h : heap) (list : address) :
  (list < List.length h)%nat ->
  exists ext,
    match aggregate (read h list) with
    | Ok out =>
        exists refs,
          aggregateAt list h = (Ok refs, h ++ ext)
          /\ map (resolve (h ++ ext)) refs = out
    | Throw e => aggregateAt list h = (Throw e, h ++ ext)
    end.
Proof.
  intros Hlist; rewrite aggregateAt_unfold; unfold aggregate.
  assert (Hinv : allocatedSince h h []).
  { repeat split; [exists []; now rewrite app_nil_r | constructor | constructor]. }
  pose proof (forEachFrom_simulates h list Hlist (read h list) [] [] h eq_refl Hinv)
    as Hloop.
  simpl in Hloop.
  destruct (forEach groupItem (read h list) []) as [G|e]; simpl.
  - destruct Hloop as (g & h' & -> & <- & (ext & ->) & _).
    exists ext.
    pose proof (Array_mapM_summarizeAt (h ++ ext) g (Object_keys g)) as Hmap.
    replace (Object_keys (arraysOf (h ++ ext) g)) with (Object_keys g)
      by (unfold Object_keys; now rewrite keys_arraysOf).
    destruct (Array_map _ (Object_keys g)) as [ds|e]; simpl.
    + destruct Hmap as (refs & -> & <-).
      eexists; split; [reflexivity|].
      now apply Array_sort_map.
    + now rewrite Hmap.
  - destruct Hloop as (ext & ->); eauto.
Qed.

(** C6.  Called any number of times in succession on the array at an
    address of the heap, the aggregation returns every time the value of
    [aggregate] on the elements that array had before the first call, and no
    array that existed before the first call, the input among them, is
    changed by the calls. *)
Theorem aggregate_repeatable_without_side_effect
    (n : nat) (list : address) (h : heap) :
  (list < List.length h)%nat ->
  fst (calls n list h) = repeat (aggregate (read h list)) n
  /\ forall a, (a < List.length h)%nat -> read (snd (calls n list h)) a = read h a.
Proof.
  intros Hlist.
  assert (H : exists ext,
             calls n list h = (repeat (aggregate (read h list)) n, h ++ ext)).
  { revert h Hlist; induction n as [|n IH]; intros h Hlist; simpl.
    - exists []; now rewrite app_nil_r.
    - destruct (aggregateAt_refines h list Hlist) as (ext & Hcall).
      destruct (IH (h ++ ext)) as (ext' & Hrest);
        [rewrite length_app; lia|].
      rewrite read_old in Hrest by exact Hlist.
      exists (ext ++ ext'); rewrite app_assoc.
      destruct (aggregate (read h list)) as [out|e].
      + destruct Hcall as (refs & -> & <-); now rewrite Hrest.
      + now rewrite Hcall, Hrest. }
  destruct H as (ext & ->); simpl; split; [reflexivity|].
  intros a Ha; now apply read_old.
Qed.
End HeapFacts.

(** * The scenario and other concrete runs *)

(** The end-to-end scenario: two summaries, day one then day two, with the
    extremes 10 and 22 and the condition Clear for day one. *)
Example twoDays_summaries :
  exists d1 d2,
    aggregate (host := utc) twoDays = Ok [d1; d2]
    /\ Daily.minTemp d1 = Finite 10 /\ Daily.maxTemp d1 = Finite 22
    /\ Weather.main (Daily.weather d1) = Some "Clear"
    /\ dayOf (host := utc) d1 = "11/1/2026"
    /\ dayOf (host := utc) d2 = "11/2/2026".
Proof.
  do 2 eexists; split; [vm_compute; reflexivity|].
  repeat split.
Qed.

(** The tie-break examples of the specification, in time order: Rain wins
    two to one, and a tie at one each goes to the first sample. *)
Example tie_break_scenarios :
  exists d d',
    aggregate (host := utc)
      [ sample midnight 10 14 "Rain"; sample (midnight + 10800) 10 14 "Clouds";
        sample (midnight + 21600) 10 14 "Rain" ] = Ok [d]
    /\ aggregate (host := utc)
         [ sample midnight 10 14 "Rain"; sample (midnight + 10800) 10 14 "Clouds" ]
       = Ok [d']
    /\ Weather.main (Daily.weather d) = Some "Rain"
    /\ Weather.main (Daily.weather d') = Some "Rain".
Proof.
  do 2 eexists; split; [vm_compute; reflexivity|].
  split; [vm_compute; reflexivity|].
  split; reflexivity.
Qed.

Lemma aggregate_one_summary_per_day_witness :
  exists out,
    aggregate (host := utc) twoDays = Ok out /\ List.length out = 2%nat.
Proof.
  destruct (aggregate_one_summary_per_day (host := utc) twoDays)
    as (out & Hagg & _ & _ & Hlen & _).
  - repeat (apply Forall_cons; [vm_compute; reflexivity|]); apply Forall_nil.
  - repeat (apply Forall_cons; [vm_compute; reflexivity|]); apply Forall_nil.
  - exists out; split; [exact Hagg|].
    rewrite Hlen; vm_compute; reflexivity.
Defined.

Lemma summary_min_max_witness :
  exists out d lo hi,
    aggregate (host := utc) twoDays = Ok out
    /\ In d out /\ dayOf (host := utc) d = "11/1/2026"
    /\ Daily.minTemp d = Finite lo /\ Daily.maxTemp d = Finite hi.
Proof.
  destruct (summary_min_max (host := utc) twoDays) as [Htotal H].
  destruct Htotal as (out & Hagg).
  - repeat (apply Forall_cons; [vm_compute; reflexivity|]); apply Forall_nil.
  - destruct (H out "11/1/2026" Hagg)
      as (d & lo & hi & Hd & Hday & _ & _ & Hlo & Hhi & _).
    + left; vm_compute; reflexivity.
    + exists out, d, lo, hi; auto.
Defined.

(** C3, counterexample.  Clouds and Rain tie at one occurrence; the Rain
    sample is the earlier one in time, yet the Clouds entry, first in input
    order, is the one returned. *)
Lemma tie_not_broken_by_time :
  exists d,
    aggregate (host := utc) outOfOrder = Ok [d]
    /\ Daily.weather d = Weather.mk (Some "Clouds") "Clouds sky" "01d"
    /\ occurrences "Rain" (Daily.items d) = occurrences "Clouds" (Daily.items d)
    /\ hasCondition "Rain" earlyRain = true
    /\ hasCondition "Clouds" lateClouds = true
    /\ Item.dt earlyRain < Item.dt lateClouds.
Proof.
  eexists; split; [vm_compute; reflexivity|].
  repeat split.
Qed.

Lemma dominant_condition_first_in_input_order_witness :
  exists out d c,
    aggregate (host := utc) twoDays = Ok out
    /\ In d out /\ dayOf (host := utc) d = "11/1/2026"
    /\ Weather.main (Daily.weather d) = Some c.
Proof.
  destruct (dominant_condition_first_in_input_order (host := utc) twoDays)
    as [Htotal H].
  destruct Htotal as (out & Hagg).
  - repeat (apply Forall_cons; [vm_compute; reflexivity|]); apply Forall_nil.
  - destruct (H out "11/1/2026" Hagg)
      as (d & c & pre & x & post & Hd & Hday & _ & _ & _ & Hc & _).
    + left; vm_compute; reflexivity.
    + assert (Hb : bucket (host := utc) "11/1/2026" twoDays = dayOne)
        by (vm_compute; reflexivity).
      rewrite Hb; unfold dayOne.
      repeat (apply Forall_cons; [vm_compute; reflexivity|]); apply Forall_nil.
    + exists out, d, c; auto.
Defined.

(** C4, counterexample.  The summary of the day carries the timestamp of the
    sample that came first in the input, although the day has an earlier
    one. *)
Lemma representative_not_earliest :
  exists d,
    aggregate (host := utc) outOfOrder = Ok [d]
    /\ Daily.date d = Item.dt lateClouds * 1000
    /\ In earlyRain (Daily.items d)
    /\ Item.dt earlyRain * 1000 < Daily.date d.
Proof.
  eexists; split; [vm_compute; reflexivity|].
  repeat split; simpl; auto.
Qed.

Lemma representative_is_first_of_day_witness :
  exists out d,
    aggregate (host := utc) twoDays = Ok out
    /\ In d out /\ dayOf (host := utc) d = "11/1/2026"
    /\ Daily.date d = midnight * 1000.
Proof.
  destruct (representative_is_first_of_day (host := utc) twoDays)
    as [Htotal H].
  destruct Htotal as (out & Hagg).
  - repeat (apply Forall_cons; [vm_compute; reflexivity|]); apply Forall_nil.
  - destruct (H out "11/1/2026" Hagg)
      as (d & first & rest & Hd & Hday & _ & Hb & Hdate).
    + left; vm_compute; reflexivity.
    + assert (Hfirst : first = sample midnight 10 14 "Clear").
      { assert (E : bucket (host := utc) "11/1/2026" twoDays = dayOne)
          by (vm_compute; reflexivity).
        rewrite E in Hb; unfold dayOne in Hb; congruence. }
      subst first.
      destruct Hdate as (_ & Hdate & _); [vm_compute; reflexivity|].
      exists out, d; auto.
Defined.

(** C5, counterexample.  Swapping the two samples of a day changes the
    summary: its [date] and its [weather] both differ. *)
Lemma aggregate_not_permutation_invariant :
  Permutation outOfOrder inOrder
  /\ exists d d',
      aggregate (host := utc) outOfOrder = Ok [d]
      /\ aggregate (host := utc) inOrder = Ok [d']
      /\ Daily.date d <> Daily.date d'
      /\ Daily.weather d <> Daily.weather d'
      /\ aggregate (host := utc) outOfOrder <> aggregate (host := utc) inOrder.
Proof.
  split; [apply perm_swap|].
  do 2 eexists; split; [vm_compute; reflexivity|].
  split; [vm_compute; reflexivity|].
  repeat split; vm_compute; discriminate.
Qed.

Lemma aggregate_same_order_within_days_witness :
  aggregate (host := utc) [secondDay; firstDay]
  = aggregate (host := utc) [firstDay; secondDay].
Proof.
  apply aggregate_same_order_within_days; [|apply perm_swap|].
  - repeat (apply Forall_cons; [vm_compute; reflexivity|]); apply Forall_nil.
  - assert (Hdays : dayKey (host := utc) firstDay <> dayKey (host := utc) secondDay)
      by (vm_compute; discriminate).
    intros k; unfold bucket; cbn [filter]; unfold sameDay.
    destruct (String.eqb_spec (dayKey (host := utc) secondDay) k) as [E2|];
      destruct (String.eqb_spec (dayKey (host := utc) firstDay) k) as [E1|];
      try reflexivity.
    congruence.
Defined.



(** C9, counterexample.  A [list] that is present but is not an array (here
    a plain object) makes the component throw. *)
Lemma non_array_list_throws :
  available (Props.mk (Some (ForecastData.mk VObject)) false "metric") = true
  /\ ForecastScreen (host := utc)
       (Props.mk (Some (ForecastData.mk VObject)) false "metric")
     = Throw TypeError.
Proof. split; reflexivity. Qed.

Lemma absent_forecast_is_placeholder_witness :
  ForecastScreen (host := utc) (Props.mk None false "metric")
  = Ok UnavailableView.
Proof.
  destruct (absent_forecast_is_placeholder (host := utc)
              (Props.mk None false "metric")) as (v & Hv & _ & ->);
    [reflexivity | exact Hv].
Defined.

Lemma dominant_condition_from_own_day_witness :
  exists out,
    aggregate (host := utc) twoDays = Ok out
    /\ forall d, In d out ->
         exists it, In it twoDays /\ firstCondition it = Some (Daily.weather d).
Proof.
  destruct (dominant_condition_from_own_day (host := utc) twoDays) as [Htotal H].
  - repeat (apply Forall_cons; [discriminate|]); apply Forall_nil.
  - destruct Htotal as (out & Hagg).
    + repeat (apply Forall_cons; [vm_compute; reflexivity|]); apply Forall_nil.
    + exists out; split; [exact Hagg|].
      intros d Hd; destruct (H out d Hagg Hd) as (it & Hin & _ & _ & Hw); eauto.
Defined.

Lemma aggregate_repeatable_without_side_effect_witness :
  fst (calls (host := utc) 3 1%nat someHeap)
  = repeat (aggregate (host := utc) twoDays) 3
  /\ read (snd (calls (host := utc) 3 1%nat someHeap)) 1%nat = twoDays.
Proof.
  destruct (aggregate_repeatable_without_side_effect (host := utc) 3 1%nat someHeap)
    as [Hsame Hkept]; [simpl; lia|].
  split; [exact Hsame | apply Hkept; simpl; lia].
Defined.

(** * Further facts about the aggregation *)


Lemma concat_map_Permutation {A B : Type} (f : A -> list B) (l l' : list A) :
  Permutation l l' -> Permutation (List.concat (map f l)) (List.concat (map f l')).
Proof.
  induction 1 as [|x l l' _ IH|x y l|l l' l'' _ IH1 _ IH2]; simpl.
  - constructor.
  - now apply Permutation_app_head.
  - rewrite !app_assoc; apply Permutation_app_tail, Permutation_app_comm.
  - now transitivity (List.concat (map f l')).
Qed.

Lemma Array_map_project {A B C : Type} (f : A -> result B) (h : B -> C)
    (g : A -> C) (l : list A) (ys : list B) :
  (forall x y, In x l -> f x = Ok y -> h y = g x) ->
  Array_map f l = Ok ys -> map h ys = map g l.
Proof.
  revert ys; induction l as [|x l IH]; intros ys Hh H; simpl in H.
  - now inversion H.
  - apply bind_Ok in H as (y & Hy & H).
    apply bind_Ok in H as (ys' & Hys & H).
    inversion H; subst; simpl; f_equal.
    + apply Hh; [now left | exact Hy].
    + apply IH; [|exact Hys]. intros; apply Hh; auto; now right.
Qed.

Lemma filter_disjoint_Permutation {A : Type} (p q : A -> bool) (l : list A) :
  (forall x, p x = true -> q x = true -> False) ->
  Permutation (filter p l ++ filter q l) (filter (fun x => p x || q x) l).
Proof.
  intros Hd; induction l as [|x l IH]; simpl; [constructor|].
  destruct (p x) eqn:Hp, (q x) eqn:Hq; simpl.
  - exfalso; eauto.
  - now constructor.
  - rewrite <- Permutation_middle; now constructor.
  - exact IH.
Qed.



Lemma ascending_strict {A : Type} (key : A -> Z) (l : list A) :
  StronglySorted (fun a b => key a <= key b) l -> NoDup (map key l) ->
  StronglySorted (fun a b => key a < key b) l.
Proof.
  induction 1 as [|x l Hl IH Hx]; intros Hnd; [constructor|].
  inversion Hnd as [|? ? Hnotin Hnd']; subst.
  constructor; [auto|].
  rewrite Forall_forall in *; intros y Hy.
  specialize (Hx y Hy).
  assert (key x <> key y); [|lia].
  intros Heq; apply Hnotin; rewrite Heq; now apply in_map.
Qed.

Section PartitionFacts.
Context {host : Host}.

(** The buckets of the days in [ks], laid end to end, hold the samples
    whose day is in [ks]. *)
Lemma buckets_Permutation (l : list Item.t) (ks : list string) :
  NoDup ks ->
  Permutation (List.concat (map (fun k => bucket k l) ks))
    (filter (fun it => existsb (fun k => sameDay k it) ks) l).
Proof.
  induction 1 as [|k ks Hk Hnd IH]; simpl.
  - induction l; simpl; auto.
  - rewrite IH; unfold bucket at 1.
    apply filter_disjoint_Permutation.
    intros it Hs Hex; apply Hk.
    apply existsb_exists in Hex as (k' & Hin & Hs').
    unfold sameDay in *; apply String.eqb_eq in Hs, Hs'; congruence.
Qed.
End PartitionFacts.


Section FurtherAggregate.
Context {host : Host}.



(** In a completed run the days of the summaries are pairwise distinct. *)
Lemma summaries_distinct_days (l : list Item.t) (out : list Daily.t) :
  aggregate l = Ok out -> NoDup (map dayOf out).
Proof.
  intros (_ & Hperm & _)%aggregate_Ok.
  apply (Permutation_NoDup (Permutation_sym Hperm)), firstOccurrences_NoDup.
Qed.

(** X1.  A completed run keeps every sample exactly once: the [items] of
    the summaries, laid end to end, are a rearrangement of the input. *)
Theorem aggregate_keeps_every_sample (l : list Item.t) (out : list Daily.t) :
  aggregate l = Ok out ->
  Permutation (List.concat (map Daily.items out)) l.
Proof.
  intros H; pose proof (aggregate_unfold l) as Hu.
  destruct (existsb inheritedDay l); [congruence|].
  destruct Hu as (keys & Hkeys & Hu); rewrite Hu in H; clear Hu.
  apply bind_Ok in H as (dF & HdF & H); inversion H; subst out; clear H.
  rewrite (concat_map_Permutation Daily.items _ _
             (Array_sort_Permutation _ Daily.date dF)).
  rewrite (Array_map_project (fun k => summarize (bucket k l)) Daily.items
             (fun k => bucket k l) keys dF);
    [|intros k d _ Hd; now apply summarize_bucket_day in Hd|exact HdF].
  rewrite (concat_map_Permutation (fun k => bucket k l) _ _ Hkeys).
  rewrite buckets_Permutation by apply firstOccurrences_NoDup.
  rewrite forallb_filter_id; [reflexivity|].
  apply forallb_forall; intros it Hin.
  apply existsb_exists; exists (dayKey it); split.
  - apply firstOccurrences_In; now apply in_map.
  - unfold sameDay; apply String.eqb_refl.
Qed.

(** X2.  In a completed run the [items] of a summary are exactly the
    samples of its day, in the order in which the input lists them; there
    is at least one. *)
Theorem summary_items_in_input_order
    (l : list Item.t) (out : list Daily.t) (d : Daily.t) :
  aggregate l = Ok out -> In d out ->
  Daily.items d = filter (fun it => String.eqb (dayKey it) (dayOf d)) l
  /\ Daily.items d <> [].
Proof.
  intros Hagg Hd.
  destruct (summary_bucket l out d Hagg Hd) as (_ & Hitems & Hk).
  split; [exact Hitems|].
  rewrite Hitems; intros Hb%bucket_nil; auto.
Qed.

(** X3.  In a completed run on samples whose timestamps give valid dates,
    the [date]s of the summaries are time values of valid dates and increase
    strictly along the list: no two rows of the list share the [date] from
    which their key is made. *)
Theorem summaries_strictly_ascending (l : list Item.t) (out : list Daily.t) :
  Forall (fun it => datable it = true) l ->
  aggregate l = Ok out ->
  Forall (fun d => Date (Daily.date d) = TimeValue (Daily.date d)) out
  /\ StronglySorted (fun a b => Daily.date a < Daily.date b) out.
Proof.
  intros Hdt Hagg; split; [exact (summary_date_valid l out Hdt Hagg)|].
  apply (ascending_strict Daily.date).
  - now apply aggregate_Ok in Hagg.
  - apply (NoDup_map_inv toLocaleDateString); rewrite map_map.
    exact (summaries_distinct_days l out Hagg).
Qed.

(** X4.  When no sample has its [temp_min] above its [temp_max], no
    summary of a completed run has its [minTemp] above its [maxTemp]. *)
Theorem summary_min_le_max (l : list Item.t) (out : list Daily.t) (d : Daily.t) :
  Forall (fun it => Main.temp_min (Item.main it) <= Main.temp_max (Item.main it)) l ->
  aggregate l = Ok out -> In d out ->
  exists lo hi,
    Daily.minTemp d = Finite lo /\ Daily.maxTemp d = Finite hi /\ lo <= hi.
Proof.
  intros Hsane Hagg Hd.
  destruct (summary_temperatures l out d Hagg Hd)
    as (lo & hi & Hlo & Hhi & Hall & (it & Hin & <-) & _).
  exists (Main.temp_min (Item.main it)), hi; repeat split; auto.
  rewrite Forall_forall in Hsane.
  pose proof Hin as [Hl _]%bucket_sameDay.
  specialize (Hsane it Hl); specialize (Hall it Hin); lia.
Qed.

End FurtherAggregate.

Section OrderInsensitive.
Context {host : Host}.

End OrderInsensitive.

(** ** A day without any category *)

Lemma countWeather_undefined (items : list Item.t) (m : Z) :
  Forall (fun it => exists w ws,
            Item.weather it = w :: ws /\ Weather.main w = None) items ->
  forEach countWeather items [("undefined", Count m)]
  = Ok [("undefined", Count (m + Z.of_nat (List.length items)))].
Proof.
  intros H; revert m; induction H as [|it items (w & ws & Hw & Hm) _ IH];
    intros m.
  - simpl; now rewrite Z.add_0_r.
  - assert (Hstep : countWeather [("undefined", Count m)] it
                    = Ok [("undefined", Count (m + 1))]).
    { unfold countWeather; rewrite Hw; unfold ToPropertyKey; rewrite Hm.
      reflexivity. }
    cbn [forEach]; rewrite Hstep; cbn [bind]; rewrite IH.
    cbn [List.length]; rewrite Nat2Z.inj_succ.
    now replace (m + Z.succ (Z.of_nat (List.length items)))
      with (m + 1 + Z.of_nat (List.length items)) by lia.
Qed.

Lemma find_hasCondition_undefined (items : list Item.t) (k : string) :
  Forall (fun it => exists w ws,
            Item.weather it = w :: ws /\ Weather.main w = None) items ->
  Array_find (hasCondition k) items = None.
Proof.
  unfold Array_find; induction 1 as [|it items (w & ws & Hw & Hm) _ IH];
    simpl; [reflexivity|].
  unfold hasCondition at 1; now rewrite Hw, Hm.
Qed.

(** The reduction of a day throws when none of its samples carries a
    category. *)
Lemma summarize_uncategorized (items : list Item.t) :
  items <> [] ->
  Forall (fun it => exists w ws,
            Item.weather it = w :: ws /\ Weather.main w = None) items ->
  summarize items = Throw TypeError.
Proof.
  intros Hne Hall; destruct items as [|first rest]; [congruence|].
  pose proof (find_hasCondition_undefined (first :: rest) "undefined" Hall) as Hf.
  inversion Hall as [|? ? (w & ws & Hw & Hm) Hrest]; subst.
  set (n := 1 + Z.of_nat (List.length rest)).
  assert (Hwc : forEach countWeather (first :: rest) []
                = Ok [("undefined", Count n)]).
  { assert (Hstep : countWeather [] first = Ok [("undefined", Count 1)]).
    { unfold countWeather; rewrite Hw; unfold ToPropertyKey; rewrite Hm.
      reflexivity. }
    cbn [forEach]; rewrite Hstep; cbn [bind].
    now apply countWeather_undefined. }
  assert (Hpick : pickWeather (first :: rest) [("undefined", Count n)] (w, 0)
                    "undefined" = Throw TypeError).
  { unfold pickWeather.
    change (own [("undefined", Count n)] "undefined") with (Some (Count n)).
    unfold greater; cbn [snd].
    rewrite (proj2 (Z.ltb_lt 0 n)) by (unfold n; lia).
    now rewrite Hf. }
  unfold summarize; rewrite Hwc; cbn [bind]; rewrite Hw.
  change (Object_keys [("undefined", Count n)]) with ["undefined"].
  cbn [forEach]; now rewrite Hpick.
Qed.

Section UncategorizedDay.
Context {host : Host}.

(** X7.  When no sample of some day of the input carries a category (every
    one has a condition entry, but without [main]), the whole run throws. *)
Theorem uncategorized_day_aborts (l : list Item.t) (it0 : Item.t) :
  In it0 l ->
  (forall it, In it l -> dayKey it = dayKey it0 ->
     exists w ws, Item.weather it = w :: ws /\ Weather.main w = None) ->
  aggregate l = Throw TypeError.
Proof.
  intros Hin Hday; pose proof (aggregate_unfold l) as Hu.
  destruct (existsb inheritedDay l); [exact Hu|].
  destruct Hu as (keys & Hkeys & ->).
  rewrite (Array_map_Throw _ keys (dayKey it0) TypeError); [reflexivity| |].
  - apply (Permutation_in _ (Permutation_sym Hkeys)), firstOccurrences_In.
    now apply in_map.
  - apply summarize_uncategorized.
    + intros Hb%bucket_nil; apply Hb; now apply in_map.
    + apply Forall_forall; intros it [Hl Hk]%bucket_sameDay; auto.
Qed.
End UncategorizedDay.

(** * Further facts about the heap embedding *)

Lemma own_injective (g : object address) (k1 k2 : string) (a : address) :
  NoDup (map snd g) -> own g k1 = Some a -> own g k2 = Some a -> k1 = k2.
Proof.
  induction g as [|[k v] g IH]; simpl; [discriminate|].
  intros Hnd H1 H2; inversion Hnd as [|? ? Hnotin Hnd']; subst.
  destruct (String.eqb_spec k1 k) as [->|Hne1];
    destruct (String.eqb_spec k2 k) as [->|Hne2]; auto.
  - inversion H1; subst; exfalso; apply Hnotin; eapply own_value; eauto.
  - inversion H2; subst; exfalso; apply Hnotin; eapply own_value; eauto.
Qed.

Lemma summarizeAt_address (a : address) (h h' : heap) (r : DailyRef.t) :
  summarizeAt a h = (Ok r, h') -> h' = h /\ DailyRef.items r = a.
Proof.
  unfold summarizeAt, bindM, contents, ret, throw.
  destruct (summarize (read h a)) as [d|e]; intros H; inversion H; auto.
Qed.

Lemma Array_mapM_addresses (g : object address) (keys : list string)
    (h h' : heap) (refs : list DailyRef.t) :
  Array_mapM (fun date => match lookup g date with
                          | Own a => summarizeAt a
                          | _ => throw TypeError
                          end) keys h = (Ok refs, h') ->
  h' = h /\ Forall2 (fun k r => own g k = Some (DailyRef.items r)) keys refs.
Proof.
  revert refs h'; induction keys as [|k keys IH]; intros refs h' H.
  - inversion H; subst; auto.
  - rewrite Array_mapM_cons in H.
    unfold lookup in H.
    destruct (own g k) as [a|] eqn:Hown;
      [|destruct (Object_prototype_has k); discriminate].
    destruct (summarizeAt a h) as [[r|e] h1] eqn:Hr; [|discriminate].
    apply summarizeAt_address in Hr as [-> <-].
    fold (lookup g) in H.
    destruct (Array_mapM _ keys h) as [[refs'|e] h''] eqn:E; [|discriminate].
    destruct (IH refs' h'' eq_refl) as [-> Hall].
    inversion H; subst; split; [reflexivity|].
    constructor; [exact Hown | exact Hall].
Qed.

Lemma Forall2_own_NoDup (g : object address) (keys : list string)
    (refs : list DailyRef.t) :
  Forall2 (fun k r => own g k = Some (DailyRef.items r)) keys refs ->
  NoDup keys -> NoDup (map snd g) -> NoDup (map DailyRef.items refs).
Proof.
  intros H Hkeys Hg; induction H as [|k r keys refs Hk Hall IH]; simpl;
    [constructor|].
  inversion Hkeys as [|? ? Hnotin Hkeys']; subst.
  constructor; [|auto].
  intros Hin; apply in_map_iff in Hin as (r' & Heq & Hr').
  apply Hnotin; clear IH Hnotin Hkeys Hkeys'.
  induction Hall as [|k' r'' keys refs Hk' _ IH]; [destruct Hr'|].
  destruct Hr' as [->|Hr'].
  - left; apply (own_injective g k' k (DailyRef.items r)); congruence.
  - right; auto.
Qed.

Section HeapAliasing.
Context {host : Host}.

(** X8.  The [items] of the summaries a call returns are the addresses of
    arrays that did not exist before the call, one per summary: no summary
    shares its array with another summary, with the input or with any array
    that was there before. *)
Theorem aggregateAt_buckets_fresh
    (h h' : heap) (list : address) (refs : List.list DailyRef.t) :
  (list < List.length h)%nat ->
  aggregateAt list h = (Ok refs, h') ->
  NoDup (map DailyRef.items refs)
  /\ Forall (fun r => (List.length h <= DailyRef.items r < List.length h')%nat
                      /\ DailyRef.items r <> list) refs.
Proof.
  intros Hlist H; rewrite aggregateAt_unfold in H.
  assert (Hinv : allocatedSince h h []).
  { repeat split; [exists []; now rewrite app_nil_r | constructor | constructor]. }
  pose proof (forEachFrom_simulates h list Hlist (read h list) [] [] h eq_refl Hinv)
    as Hloop.
  pose proof (group_spec (read h list)) as Hgroup.
  simpl in Hloop.
  destruct (forEach groupItem (read h list) []) as [G|e].
  - destruct Hloop as (g & h1 & Hrun & HG & (_ & Hrange & Hnd)).
    rewrite Hrun in H.
    destruct (Array_mapM _ (Object_keys g) h1) as [[dF|e] h2] eqn:EM;
      [|discriminate].
    inversion H; subst refs h'; clear H.
    apply Array_mapM_addresses in EM as [-> Hall].
    assert (Hkeys : NoDup (Object_keys g)).
    { apply (Permutation_NoDup (Permutation_sym (Object_keys_Permutation _ g))).
      rewrite <- (keys_arraysOf h1 g), HG.
      destruct (existsb inheritedDay (read h list)); [discriminate|].
      destruct Hgroup as (g0 & [= <-] & -> & _).
      apply firstOccurrences_NoDup. }
    pose proof (Array_sort_Permutation _ DailyRef.date dF) as Hsort.
    split.
    + apply (Permutation_NoDup (Permutation_map _ (Permutation_sym Hsort))).
      now apply (Forall2_own_NoDup g (Object_keys g)).
    + apply (Permutation_Forall (Permutation_sym Hsort)).
      rewrite Forall_forall in Hrange |- *; intros r Hr.
      assert (Ha : In (DailyRef.items r) (map snd g)).
      { clear - Hall Hr; induction Hall as [|k r' keys refs Hk _ IH];
          [destruct Hr|].
        destruct Hr as [->|Hr]; [eapply own_value; eauto | auto]. }
      specialize (Hrange _ Ha); split; [exact Hrange | lia].
  - destruct Hloop as (ext & Hrun); rewrite Hrun in H; discriminate.
Qed.
End HeapAliasing.

(** * The settings screen *)

Section SpreadFacts.
Variable V : Type.
Implicit Type o : object V.

Lemma insertEntry_Permutation (e : string * V) (l : list (string * V)) :
  Permutation (insertEntry e l) (e :: l).
Proof.
  induction l as [|e' l IH]; simpl; [reflexivity|].
  destruct (_ <=? _)%N; [reflexivity|].
  rewrite IH; apply perm_swap.
Qed.

Lemma spread_Permutation o : Permutation (spread o) o.
Proof.
  unfold spread.
  transitivity (filter (fun e => isArrayIndex (fst e)) o
                  ++ filter (fun e => negb (isArrayIndex (fst e))) o).
  - apply Permutation_app_tail.
    generalize (filter (fun e : string * V => isArrayIndex (fst e)) o) as l.
    induction l as [|e l IH]; simpl; [reflexivity|].
    rewrite insertEntry_Permutation; now constructor.
  - apply (filter_split_Permutation (fun e => isArrayIndex (fst e))).
Qed.

Lemma own_In o k v : NoDup (map fst o) -> own o k = Some v <-> In (k, v) o.
Proof.
  induction o as [|[k' v'] o IH]; simpl; intros Hnd; [split; easy|].
  inversion Hnd as [|? ? Hnotin Hnd']; subst.
  destruct (String.eqb_spec k k') as [->|Hne].
  - split; [intros [= ->]; now left|].
    intros [[= ->]|Hin]; [reflexivity|].
    exfalso; apply Hnotin; now apply (in_map fst) in Hin.
  - rewrite (IH Hnd'); split; [now right|].
    intros [[= -> ->]|Hin]; [congruence | exact Hin].
Qed.

Lemma spread_NoDup o : NoDup (map fst o) -> NoDup (map fst (spread o)).
Proof.
  apply Permutation_NoDup, Permutation_map, Permutation_sym, spread_Permutation.
Qed.

(** A copy made with the spread syntax has the properties of the
    original. *)
Lemma own_spread o k : NoDup (map fst o) -> own (spread o) k = own o k.
Proof.
  intros Hnd; pose proof (spread_NoDup o Hnd) as Hnd'.
  destruct (own o k) as [v|] eqn:E.
  - apply (own_In _ _ _ Hnd'), (Permutation_in _ (Permutation_sym (spread_Permutation o))).
    now apply (own_In _ _ _ Hnd).
  - apply own_keys; apply own_keys in E; intros Hin; apply E.
    revert Hin; apply Permutation_in, Permutation_map, spread_Permutation.
Qed.

Lemma lookup_spread o k : NoDup (map fst o) -> lookup (spread o) k = lookup o k.
Proof. intros Hnd; unfold lookup; now rewrite own_spread. Qed.

Lemma lookup_assign_eq o k v : lookup (assign o k v) k = Own v.
Proof. unfold lookup; now rewrite own_assign_eq. Qed.

Lemma lookup_assign_neq o k k' v :
  k <> k' -> lookup (assign o k v) k' = lookup o k'.
Proof. intros Hne; unfold lookup; now rewrite own_assign_neq. Qed.

Lemma assign_spread_NoDup o k v :
  NoDup (map fst o) -> NoDup (map fst (assign (spread o) k v)).
Proof.
  intros Hnd; rewrite keys_assign; now apply remember_NoDup, spread_NoDup.
Qed.
End SpreadFacts.

Lemma toggleUnits_units (st : Settings.state) :
  lookup (Settings.settings (toggleUnits st)) "units"
  = Own (JString (if isString (lookup (Settings.settings st) "units") "metric"
                  then "imperial" else "metric")).
Proof. unfold toggleUnits, setSettings; simpl; apply lookup_assign_eq. Qed.

(** X9.  Whatever [settings.units] held, one flip of the switch leaves it
    at one of the two unit systems, and from then on two flips cancel; when
    it already held a unit system, two flips restore it and one flip
    inverts the switch.  The text field and the alerts are not touched. *)
Theorem toggleUnits_flips (st : Settings.state) :
  let units k :=
    lookup (Settings.settings (Nat.iter k toggleUnits st)) "units" in
  (units 1%nat = Own (JString "metric") \/ units 1%nat = Own (JString "imperial"))
  /\ units 3%nat = units 1%nat
  /\ (units 0%nat = Own (JString "metric")
      \/ units 0%nat = Own (JString "imperial") ->
      units 2%nat = units 0%nat
      /\ switchValue (toggleUnits st) = negb (switchValue st))
  /\ Settings.locationInput (toggleUnits st) = Settings.locationInput st
  /\ Settings.alerts (toggleUnits st) = Settings.alerts st.
Proof.
  cbv zeta; cbn [Nat.iter nat_rect]; unfold switchValue.
  rewrite !toggleUnits_units.
  destruct (isString (lookup (Settings.settings st) "units") "metric") eqn:E;
    cbn [isString String.eqb Ascii.eqb Bool.eqb];
    (split; [auto|split; [reflexivity|split; [|split; reflexivity]]]).
  - intros [H|H]; rewrite H in *; [split; reflexivity | discriminate].
  - intros [H|H]; rewrite H in *; [discriminate | split; reflexivity].
Qed.

Section SettingsFacts.
Variable trim : string -> string.

(** X10.  A handler changes at most the setting it is about: typing
    changes none, "Update Location" and a city button only [location], the
    switch only [units]; and "Update Location" on a text that trims to
    nothing changes no setting at all. *)
Theorem handlers_touch_one_setting
    (st : Settings.state) (e : event) (k : string) :
  NoDup (map fst (Settings.settings st)) ->
  match e with
  | ChangeText _ => True
  | PressUpdate => k <> "location" \/ trim (Settings.locationInput st) = ""
  | PressCity _ => k <> "location"
  | FlipSwitch => k <> "units"
  end ->
  lookup (Settings.settings (handle trim st e)) k
  = lookup (Settings.settings st) k.
Proof.
  intros Hnd Hk; destruct e as [text| |city|]; simpl.
  - reflexivity.
  - unfold updateLocation.
    destruct (String.eqb_spec (trim (Settings.locationInput st)) "") as [E|E];
      simpl; [reflexivity|].
    destruct Hk as [Hk|Hk]; [|contradiction].
    rewrite lookup_assign_neq by congruence; now apply lookup_spread.
  - rewrite lookup_assign_neq by congruence; now apply lookup_spread.
  - rewrite lookup_assign_neq by congruence; now apply lookup_spread.
Qed.

Lemma popular_city_not_empty (city : string) :
  In city POPULAR_CITIES -> city <> "".
Proof.
  unfold POPULAR_CITIES; simpl; intros H ->.
  repeat (destruct H as [H|H]; [discriminate|]); exact H.
Qed.

Lemma handle_usable (st : Settings.state) (e : event) :
  NoDup (map fst (Settings.settings st)) -> usable (Settings.settings st) ->
  offered e ->
  NoDup (map fst (Settings.settings (handle trim st e)))
  /\ usable (Settings.settings (handle trim st e)).
Proof.
  intros Hnd [(city & Hloc & Hcity) Hunits] He.
  destruct e as [text| |city'|]; simpl.
  - split; [exact Hnd | split; eauto].
  - unfold updateLocation.
    destruct (String.eqb_spec (trim (Settings.locationInput st)) "") as [E|E];
      simpl; [split; [exact Hnd | split; eauto]|].
    split; [now apply assign_spread_NoDup|split].
    + eexists; split; [apply lookup_assign_eq | exact E].
    + rewrite lookup_assign_neq, lookup_spread by (auto; discriminate).
      exact Hunits.
  - split; [now apply assign_spread_NoDup|split].
    + eexists; split; [apply lookup_assign_eq | now apply popular_city_not_empty].
    + rewrite lookup_assign_neq, lookup_spread by (auto; discriminate).
      exact Hunits.
  - split; [now apply assign_spread_NoDup|split].
    + exists city.
      rewrite lookup_assign_neq, lookup_spread by (auto; discriminate); auto.
    + rewrite lookup_assign_eq.
      destruct (isString _ "metric"); auto.
Qed.

(** X11.  From settings whose [location] is a non-empty string and whose
    [units] is a unit system, whatever the user types, presses and flips,
    the settings handed to the application keep a non-empty string as
    [location] and a unit system as [units]. *)
Theorem settings_stay_usable (es : list event) (st : Settings.state) :
  NoDup (map fst (Settings.settings st)) -> usable (Settings.settings st) ->
  Forall offered es ->
  usable (Settings.settings (handleAll trim es st)).
Proof.
  intros Hnd Hu Hes; revert st Hnd Hu.
  induction Hes as [|e es He _ IH]; intros st Hnd Hu; simpl; [exact Hu|].
  destruct (handle_usable st e Hnd Hu He) as [Hnd' Hu'].
  now apply IH.
Qed.
End SettingsFacts.

(** * Fetching and showing the forecast *)

Section FetchFacts.
Context {host : Host}.
Variable W : Type.

Lemma fetchWeatherData_spec (r1 : outcome W) (r2 : outcome ForecastData.t)
    (s : App.state W) :
  App.forecastData (fetchWeatherData r1 r2 s)
  = lastForecast [(r1, r2)] (App.forecastData s)
  /\ App.weatherData (fetchWeatherData r1 r2 s)
     = lastWeather [(r1, r2)] (App.weatherData s)
  /\ App.loading (fetchWeatherData r1 r2 s) = false.
Proof.
  destruct r1 as [w|e1], r2 as [f|e2]; simpl; repeat split;
    try reflexivity; try (now destruct e1); now destruct e2.
Qed.

Lemma refreshes_spec (rs : list (outcome W * outcome ForecastData.t))
    (s : App.state W) :
  App.forecastData (refreshes rs s) = lastForecast rs (App.forecastData s)
  /\ App.weatherData (refreshes rs s) = lastWeather rs (App.weatherData s)
  /\ (rs <> [] -> App.loading (refreshes rs s) = false).
Proof.
  revert s; induction rs as [|[r1 r2] rs IH]; intros s.
  - repeat split; congruence.
  - unfold refreshes; simpl fold_left; fold (refreshes rs (fetchWeatherData r1 r2 s)).
    destruct (IH (fetchWeatherData r1 r2 s)) as (Hf & Hw & Hl).
    destruct (fetchWeatherData_spec r1 r2 s) as (Hf1 & Hw1 & Hl1).
    rewrite Hf, Hw, Hf1, Hw1; repeat split.
    + destruct r1, r2; reflexivity.
    + destruct r1; reflexivity.
    + intros _; destruct rs as [|r rs']; [exact Hl1 | apply Hl; discriminate].
Qed.

Lemma lastForecast_kept (rs : list (outcome W * outcome ForecastData.t))
    (initial : option ForecastData.t) :
  initial <> None -> lastForecast rs initial <> None.
Proof.
  revert initial; induction rs as [|[[w|e1] [f|e2]] rs IH]; intros initial H;
    simpl; auto.
  apply IH; discriminate.
Qed.

(** X12.  After any number of refreshes, each of which may fail at either
    request, the application holds the forecast of the last refresh both of
    whose requests succeeded (the one it had before, if there is none), the
    current weather of the last refresh whose first request succeeded, and
    [loading] is off; a forecast once held is never lost, and the forecast
    screen does not show its loading indicator. *)
Theorem refreshes_keep_last_success
    (units : string) (rs : list (outcome W * outcome ForecastData.t))
    (s : App.state W) :
  rs <> [] ->
  App.forecastData (refreshes rs s) = lastForecast rs (App.forecastData s)
  /\ App.weatherData (refreshes rs s) = lastWeather rs (App.weatherData s)
  /\ App.loading (refreshes rs s) = false
  /\ (App.forecastData s <> None -> App.forecastData (refreshes rs s) <> None)
  /\ ForecastScreen (forecastProps units (refreshes rs s)) <> Ok LoadingView.
Proof.
  intros Hrs; destruct (refreshes_spec rs s) as (Hf & Hw & Hl).
  specialize (Hl Hrs); repeat split; auto.
  - rewrite Hf; apply lastForecast_kept.
  - unfold ForecastScreen, forecastProps; cbn [Props.loading Props.forecastData].
    rewrite Hl; cbn [andb].
    destruct (App.forecastData (refreshes rs s)) as [data|]; [|discriminate].
    destruct (negb (truthy (ForecastData.list data))); [discriminate|].
    destruct (ForecastData.list data); try discriminate.
    cbn [Props.units].
    now destruct (aggregate list).
Qed.
End FetchFacts.

(** * Concrete runs of the further facts *)

Example session_result :
  let st := handleAll trimSpaces session initialScreen in
  Settings.settings st
  = [("location", JString "Tokyo"); ("units", JString "imperial")]
  /\ Settings.locationInput st = "   "
  /\ map fst (Settings.alerts st) = ["Success"; "Error"]
  /\ map snd (Settings.alerts st)
     = ["Location updated to Oslo"; "Please enter a valid location"].
Proof. vm_compute; repeat split. Qed.

Example twoRefreshes_result :
  let s := refreshes twoRefreshes startingApp in
  App.weatherData s = Some "London later"
  /\ App.forecastData s = Some (ForecastData.mk (VArray []))
  /\ App.loading s = false
  /\ App.console s = ["Error fetching weather data:"; "No response received:"].
Proof. vm_compute; repeat split. Qed.

Lemma aggregate_keeps_every_sample_witness :
  exists out,
    aggregate (host := utc) twoDays = Ok out
    /\ Permutation (List.concat (map Daily.items out)) twoDays.
Proof.
  destruct (aggregate (host := utc) twoDays) as [out|e] eqn:E;
    [|vm_compute in E; discriminate].
  exists out; split; [reflexivity|].
  exact (aggregate_keeps_every_sample (host := utc) twoDays out E).
Defined.

Lemma summary_items_in_input_order_witness :
  exists out d,
    aggregate (host := utc) twoDays = Ok out /\ In d out
    /\ Daily.items d <> [].
Proof.
  destruct (aggregate (host := utc) twoDays) as [[|d out]|e] eqn:E;
    [vm_compute in E; discriminate | | vm_compute in E; discriminate].
  exists (d :: out), d; split; [reflexivity|split; [now left|]].
  now destruct (summary_items_in_input_order (host := utc) twoDays (d :: out) d E
                  (or_introl eq_refl)).
Defined.

Lemma summaries_strictly_ascending_witness :
  exists out,
    aggregate (host := utc) twoDays = Ok out
    /\ StronglySorted (fun a b => Daily.date a < Daily.date b) out.
Proof.
  destruct (aggregate (host := utc) twoDays) as [out|e] eqn:E;
    [|vm_compute in E; discriminate].
  exists out; split; [reflexivity|].
  apply (summaries_strictly_ascending (host := utc) twoDays out); [|exact E].
  repeat (apply Forall_cons; [vm_compute; reflexivity|]); apply Forall_nil.
Defined.

Lemma summary_min_le_max_witness :
  exists out d lo hi,
    aggregate (host := utc) twoDays = Ok out /\ In d out
    /\ Daily.minTemp d = Finite lo /\ Daily.maxTemp d = Finite hi /\ lo <= hi.
Proof.
  destruct (aggregate (host := utc) twoDays) as [[|d out]|e] eqn:E;
    [vm_compute in E; discriminate | | vm_compute in E; discriminate].
  destruct (summary_min_le_max (host := utc) twoDays (d :: out) d)
    as (lo & hi & Hlo & Hhi & Hle).
  - repeat (apply Forall_cons; [vm_compute; discriminate|]); apply Forall_nil.
  - exact E.
  - now left.
  - exists (d :: out), d, lo, hi; repeat split; auto; now left.
Defined.



Lemma uncategorized_day_aborts_witness :
  aggregate (host := utc) uncategorizedDay = Throw TypeError.
Proof.
  apply (uncategorized_day_aborts (host := utc) uncategorizedDay
           (unlabelled midnight 9 13)).
  - now left.
  - intros it [<-|[<-|[<-|[]]]] Hday.
    + do 2 eexists; split; reflexivity.
    + do 2 eexists; split; reflexivity.
    + vm_compute in Hday; discriminate.
Defined.

Lemma aggregateAt_buckets_fresh_witness :
  exists refs h',
    aggregateAt (host := utc) 1%nat someHeap = (Ok refs, h')
    /\ NoDup (map DailyRef.items refs).
Proof.
  destruct (aggregateAt (host := utc) 1%nat someHeap) as [[refs|e] h'] eqn:E;
    [|vm_compute in E; discriminate].
  exists refs, h'; split; [reflexivity|].
  destruct (aggregateAt_buckets_fresh (host := utc) someHeap h' 1%nat refs)
    as [Hnd _]; [simpl; lia | exact E | exact Hnd].
Defined.

Lemma handlers_touch_one_setting_witness :
  lookup (Settings.settings (handle trimSpaces initialScreen FlipSwitch)) "location"
  = lookup (Settings.settings initialScreen) "location".
Proof.
  apply (handlers_touch_one_setting trimSpaces initialScreen FlipSwitch "location").
  - repeat constructor; simpl; intuition discriminate.
  - discriminate.
Defined.

Lemma settings_stay_usable_witness :
  usable (Settings.settings (handleAll trimSpaces session initialScreen)).
Proof.
  apply settings_stay_usable.
  - repeat constructor; simpl; intuition discriminate.
  - split; [exists "London"; split; [reflexivity | discriminate] | now left].
  - repeat (apply Forall_cons; [simpl; tauto|]); apply Forall_nil.
Defined.

Lemma refreshes_keep_last_success_witness :
  App.forecastData (refreshes twoRefreshes startingApp)
  = Some (ForecastData.mk (VArray []))
  /\ ForecastScreen (host := utc)
       (forecastProps "metric" (refreshes twoRefreshes startingApp))
     <> Ok LoadingView.
Proof.
  destruct (refreshes_keep_last_success (host := utc) string "metric"
              twoRefreshes startingApp) as (Hf & _ & _ & _ & Hv);
    [discriminate|].
  split; [rewrite Hf; reflexivity | exact Hv].
Defined.
